(** * Golgi: the convolution layer and the layer-redefinition helper

    A shallow embedding of [conv.go] (the [Conv] layer: construction,
    lazy initialisation, forward pass, FLOPs estimate) and of [Redefine]
    from the package's layer file.

    Go pointers are locations into a store; a method with a pointer
    receiver reads and writes the store through its receiver, so that
    aliasing between a caller's handle and the object a construction
    option mutates is visible.  Run-time faults (nil dereference, index
    out of range, integer division by zero) and calls of [panic] are
    outcomes of their own, distinct from returned [error] values. *)

From stdpp Require Import base gmap strings list.
From Stdlib Require Import ZArith Lia.

Local Open Scope Z_scope.

(** ** Go's [int] on a 64-bit platform *)

Definition int_min : Z := - 2 ^ 63.
Definition int_max : Z := 2 ^ 63 - 1.

(** Two's-complement wrap-around of a mathematical integer. *)
Definition wrap (z : Z) : Z := (z + 2 ^ 63) mod 2 ^ 64 - 2 ^ 63.

Definition in_int (z : Z) : Prop := int_min <= z <= int_max.

Definition int_add (a b : Z) : Z := wrap (a + b).
Definition int_sub (a b : Z) : Z := wrap (a - b).
Definition int_mul (a b : Z) : Z := wrap (a * b).

(** ** Outcomes and the state-and-fault monad *)

Inductive panic : Type :=
| NilDereference      (* invalid memory address or nil pointer dereference *)
| IndexOutOfRange     (* index out of range *)
| DivideByZero        (* integer divide by zero *)
| Explicit (msg : string).   (* a call of panic *)

Inductive outcome (A : Type) : Type :=
| Ret (a : A)
| Panic (p : panic).
Arguments Ret {A} a.
Arguments Panic {A} p.

(** A computation over a store [S].  The store is returned on a fault
    too: what was written before the fault stays written. *)
Definition M (S A : Type) : Type := S → outcome A * S.

Global Instance M_ret {S} : MRet (M S) := λ A a s, (Ret a, s).
Global Instance M_bind {S} : MBind (M S) := λ A B f m s,
  match m s with
  | (Ret a, s') => f a s'
  | (Panic p, s') => (Panic p, s')
  end.

Definition fault {S A} (p : panic) : M S A := λ s, (Panic p, s).

(** Go's integer division truncates toward zero and faults on a zero
    divisor. *)
Definition int_div {S} (a b : Z) : M S Z :=
  if decide (b = 0) then fault DivideByZero else mret (wrap (Z.quot a b)).

(** [s[i]] on a slice. *)
Definition index {S A} (s : list A) (i : nat) : M S A :=
  match s !! i with
  | Some a => mret a
  | None => fault IndexOutOfRange
  end.

(** ** The graph engine's data, as far as the layer reads it *)

(** Locations of the store. *)
Abbreviation loc := positive (only parsing).
(** A Go pointer: [None] is nil. *)
Abbreviation ptr := (option positive) (only parsing).

(** [tensor.Shape], a [[]int]. *)
Abbreviation Shape := (list Z) (only parsing).
(** A [float64], as its IEEE-754 bit pattern; the layer only stores
    and forwards it. *)
Abbreviation float64 := Z (only parsing).

Inductive Dtype : Type := Float64 | Float32 | Int | Bool.

Record Node : Type := mkNode {
  node_graph : ptr;        (* *ExprGraph *)
  node_dtype : Dtype;
  node_shape : Shape;
  node_name : string
}.

(** Errors are kept as the format and arguments given to [fmt.Errorf]. *)
Inductive error : Type :=
| Errorf (format : string) (args : list fmtArg)
with fmtArg : Type :=
| ArgShape (s : Shape)
| ArgString (s : string)
| ArgPtr (p : ptr)
| ArgType (tyname : string)
| ArgError (e : error).

(** [gorgonia.Input] / [gorgonia.Result]: a nil interface, a [*Node]
    (possibly a nil pointer), or an error carrier (the engine's [gErr],
    which [gorgonia.Err] makes). *)
Inductive Input : Type :=
| InputNil
| InputNode (p : ptr)
| InputErr (e : error).

Abbreviation Result := Input (only parsing).

(** [tensor.Shape.Dims]: the number of entries. *)
Definition Dims (s : Shape) : Z := Z.of_nat (length s).

(** [%v] and [%T] of an input, as [fmt] arguments. *)
Definition argOfInput (i : Input) : fmtArg :=
  match i with
  | InputNil => ArgString "<nil>"
  | InputNode p => ArgPtr p
  | InputErr e => ArgError e
  end.

Definition typeOfInput (i : Input) : fmtArg :=
  match i with
  | InputNil => ArgType "<nil>"
  | InputNode _ => ArgType "*gorgonia.Node"
  | InputErr _ => ArgType "gorgonia.gErr"
  end.

(** [in.Node()]: calling a method on a nil interface faults; an error
    carrier has no node. *)
Definition Input_Node {S} (i : Input) : M S ptr :=
  match i with
  | InputNil => fault NilDereference
  | InputNode p => mret p
  | InputErr _ => mret None
  end.

(** [gorgonia.CheckOne]: the error an input carries, if any. *)
Definition CheckOne (i : Input) : option error :=
  match i with
  | InputErr e => Some e
  | _ => None
  end.

(** Reading a field of the node a handle points to; a nil handle
    faults. (A handle that points nowhere does not arise in Go; the
    model faults on it as well.) *)
Definition Node_read {A} (f : Node → A) (x : ptr) : M (gmap loc Node) A :=
  λ h, match x ≫= (h !!.) with
       | Some n => (Ret (f n), h)
       | None => (Panic NilDereference, h)
       end.

Definition Node_Shape : ptr → M (gmap loc Node) Shape := Node_read node_shape.
Definition Node_Graph : ptr → M (gmap loc Node) ptr := Node_read node_graph.
Definition Node_Dtype : ptr → M (gmap loc Node) Dtype := Node_read node_dtype.

(** A call that either completes or faults having changed nothing. *)
Definition atomically {S A} (f : S → outcome (A * S)) : M S A :=
  λ s, match f s with
       | Ret (a, s') => (Ret a, s')
       | Panic k => (Panic k, s)
       end.

(** An activation function maps a node of the graph to a node or an
    error, and may add nodes to the graph. *)
Definition ActivationFunction : Type :=
  option positive → M (gmap positive Node) (option positive * option error).

(** ** The [Conv] struct and the store *)

Record Conv : Type := mkConv {
  w : ptr;                          (* *gorgonia.Node *)
  name : string;
  size : list Z;
  kernelShape : Shape;
  pad : list Z;
  stride : list Z;
  dilation : list Z;
  dropout : option float64;         (* nil when it shouldn't be applied *)
  act : option ActivationFunction;  (* a Go func value; [None] is nil *)
  initialized : bool;
  computeFLOPs : bool;
  flops : Z
}.

Definition with_w (v : ptr) (c : Conv) : Conv :=
  mkConv v c.(name) c.(size) c.(kernelShape) c.(pad) c.(stride) c.(dilation)
         c.(dropout) c.(act) c.(initialized) c.(computeFLOPs) c.(flops).
Definition with_name (v : string) (c : Conv) : Conv :=
  mkConv c.(w) v c.(size) c.(kernelShape) c.(pad) c.(stride) c.(dilation)
         c.(dropout) c.(act) c.(initialized) c.(computeFLOPs) c.(flops).
Definition with_size (v : list Z) (c : Conv) : Conv :=
  mkConv c.(w) c.(name) v c.(kernelShape) c.(pad) c.(stride) c.(dilation)
         c.(dropout) c.(act) c.(initialized) c.(computeFLOPs) c.(flops).
Definition with_dropout (v : option float64) (c : Conv) : Conv :=
  mkConv c.(w) c.(name) c.(size) c.(kernelShape) c.(pad) c.(stride) c.(dilation)
         v c.(act) c.(initialized) c.(computeFLOPs) c.(flops).
Definition with_act (v : option ActivationFunction) (c : Conv) : Conv :=
  mkConv c.(w) c.(name) c.(size) c.(kernelShape) c.(pad) c.(stride) c.(dilation)
         c.(dropout) v c.(initialized) c.(computeFLOPs) c.(flops).
Definition with_initialized (v : bool) (c : Conv) : Conv :=
  mkConv c.(w) c.(name) c.(size) c.(kernelShape) c.(pad) c.(stride) c.(dilation)
         c.(dropout) c.(act) v c.(computeFLOPs) c.(flops).
Definition with_flops (v : Z) (c : Conv) : Conv :=
  mkConv c.(w) c.(name) c.(size) c.(kernelShape) c.(pad) c.(stride) c.(dilation)
         c.(dropout) c.(act) c.(initialized) c.(computeFLOPs) v.

(** The store: the graph's nodes and the [Conv] structs on the heap. *)
Record World : Type := mkWorld {
  nodes : gmap loc Node;
  convs : gmap loc Conv
}.

(** Running a graph-engine computation in the world. *)
Definition on_nodes {A} (m : M (gmap loc Node) A) : M World A :=
  λ σ, let '(r, h) := m σ.(nodes) in (r, mkWorld h σ.(convs)).

(** [*l]: reading the struct behind a [*Conv]. *)
Definition load (l : ptr) : M World Conv :=
  λ σ, match l ≫= (σ.(convs) !!.) with
       | Some c => (Ret c, σ)
       | None => (Panic NilDereference, σ)
       end.

(** [l.field = v]: writing a field through a [*Conv]. *)
Definition store (l : ptr) (f : Conv → Conv) : M World unit :=
  λ σ, match l with
       | Some p =>
         match σ.(convs) !! p with
         | Some c => (Ret tt, mkWorld σ.(nodes) (<[p := f c]> σ.(convs)))
         | None => (Panic NilDereference, σ)
         end
       | None => (Panic NilDereference, σ)
       end.

(** [&Conv{...}]: a struct at a location not in use. *)
Definition alloc (c : Conv) : M World ptr :=
  λ σ, let p := fresh (dom σ.(convs)) in
       (Ret (Some p), mkWorld σ.(nodes) (<[p := c]> σ.(convs))).

(** Calling a func value; a nil func faults. *)
Definition callable {S A} (f : option A) : M S A :=
  match f with
  | Some g => mret g
  | None => fault NilDereference
  end.

(** ** Layers and construction options *)

(** A [Layer] interface value: nil, a [*Conv], or a pointer to a layer
    type defined elsewhere in the package. *)
Inductive Layer : Type :=
| LayerNil
| LayerConv (p : ptr)
| LayerOther (tyname : string) (p : ptr).

Definition typeOfLayer (o : Layer) : fmtArg :=
  match o with
  | LayerNil => ArgType "<nil>"
  | LayerConv _ => ArgType "*golgi.Conv"
  | LayerOther t _ => ArgType t
  end.

(** [type ConsOpt func(Layer) (Layer, error)]. *)
Definition ConsOpt : Type := Layer → M World (Layer * option error).

(** Modelled from the spec: [wrapErr] is defined outside the files at
    hand; a failed forward step "wraps the underlying error with the
    layer's type and a stage-specific message" and is "returned as a
    failed result". *)
Definition wrapErr (l : ptr) (format : string) (extra : list fmtArg) : Result :=
  InputErr (Errorf format (typeOfLayer (LayerConv l) :: extra)).

(** The graph engine's operations the layer calls.

    [NewTensor g of dims shp name] is [gorgonia.NewTensor(g, of, dims,
    WithShape(shp...), WithName(name), WithInit(...))]: from the nodes
    of the graph it gives the node it returns and the nodes after the
    call, or a panic. The node returned need not be a new one: the
    graph hands back a node it already holds when asked for one it
    takes to be the same. A panic of it (of the initialiser, on a shape
    or a dtype it does not take) leaves the graph as it was. The initial
    values are not part of the model. *)
Class Engine : Type := {
  NewTensor : option positive → Dtype → Z → list Z → string →
              gmap positive Node → outcome (option positive * gmap positive Node);
  Rectify : ActivationFunction;
  Conv2d : ptr → ptr → Shape → list Z → list Z → list Z →
           M (gmap loc Node) (ptr * option error);
  Dropout : ptr → float64 → M (gmap loc Node) (ptr * option error)
}.

Section Golgi.
Context `{!Engine}.

(** ** conv.go *)

Definition Init (l : ptr) (xs : list ptr) : M World (option error) :=
  x ← index xs 0;
  g ← on_nodes (Node_Graph x);
  of_ ← on_nodes (Node_Dtype x);
  c ← load l;
  let name_w := c.(name) +:+ "_w" in
  s0 ← index c.(size) 0;
  s1 ← index c.(size) 1;
  k0 ← index c.(kernelShape) 0;
  k1 ← index c.(kernelShape) 1;
  t ← on_nodes (atomically (NewTensor g of_ 4 [s0; s1; k0; k1] name_w));
  store l (with_w t);;
  store l (with_initialized true);;
  mret None.

Definition defaultConv : Conv :=
  mkConv None "" [] [5; 5] [1; 1] [1; 1] [1; 1] None (Some Rectify) false false 0.

Fixpoint NewConv_opts (l : ptr) (opts : list ConsOpt) : M World (ptr * option error) :=
  match opts with
  | [] => mret (l, None)
  | opt :: opts' =>
    '(o, err) ← opt (LayerConv l);
    match err with
    | Some e => mret (None, Some e)
    | None =>
      match o with
      | LayerConv l' => NewConv_opts l' opts'
      | _ => mret (None, Some (Errorf "Construction Option returned a non Conv. Got %T instead"
                                      [typeOfLayer o]))
      end
    end
  end.

Definition NewConv (opts : list ConsOpt) : M World (ptr * option error) :=
  l ← alloc defaultConv;
  NewConv_opts l opts.

Definition ConsConv (in_ : Input) (opts : list ConsOpt) : M World (Layer * option error) :=
  x ← Input_Node in_;
  match x with
  | None => mret (LayerNil, Some (Errorf "ConsConv expects a *Node. Got input %v of  %T instead"
                                         [argOfInput in_; typeOfInput in_]))
  | Some _ =>
    inshape ← on_nodes (Node_Shape x);
    if bool_decide (Dims inshape ≠ 4) || bool_decide (Dims inshape = 0) then
      mret (LayerNil, Some (Errorf "Expected shape is either a vector or a matrix, got %v"
                                   [ArgShape inshape]))
    else
      '(l, err) ← NewConv opts;
      match err with
      | Some e => mret (LayerNil, Some e)
      | None =>
        err ← Init l [x];
        match err with
        | Some e => mret (LayerNil, Some e)
        | None => mret (LayerConv l, None)
        end
      end
  end.

Definition SetDropout (l : ptr) (d : float64) : M World (option error) :=
  store l (with_dropout (Some d));; mret None.

Definition SetSize (l : ptr) (s : list Z) : M World (option error) :=
  store l (with_size s);; mret None.

Definition SetName (l : ptr) (n : string) : M World (option error) :=
  store l (with_name n);; mret None.

Definition SetActivationFn (l : ptr) (a : option ActivationFunction) : M World (option error) :=
  store l (with_act a);; mret None.

Definition Model (l : ptr) : M World (list ptr) :=
  c ← load l; mret [c.(w)].

Definition Conv_Shape (l : ptr) : M World Shape :=
  c ← load l; on_nodes (Node_Shape c.(w)).

Definition Name (l : ptr) : M World string :=
  c ← load l; mret c.(name).

Definition FLOPs (l : ptr) : M World Z :=
  c ← load l; mret c.(flops).

(** Lines 204-205 of conv.go: the local [instancesPerFilter]. *)
Definition instancesPerFilter {S} (shp input pad_ stride_ : list Z) : M S Z :=
  in1 ← index input 1;
  shp2 ← index shp 2;
  pad0 ← index pad_ 0;
  stride0 ← index stride_ 0;
  rows ← int_div (int_add (int_sub in1 shp2) (int_mul 2 pad0)) stride0;
  in2 ← index input 2;
  shp3 ← index shp 3;
  pad1 ← index pad_ 1;
  stride1 ← index stride_ 1;
  cols ← int_div (int_add (int_sub in2 shp3) (int_mul 2 pad1)) stride1;
  mret (int_mul (int_add rows 1) (int_add cols 1)).

Definition doComputeFLOPs (l : ptr) (input : Shape) : M World Z :=
  c ← load l;
  shp ← on_nodes (Node_Shape c.(w));
  shp1 ← index shp 1;
  shp2 ← index shp 2;
  shp3 ← index shp 3;
  let n := int_mul (int_mul shp1 shp2) shp3 in
  let flopsPerInstance := int_add n 1 in
  ipf ← instancesPerFilter shp input c.(pad) c.(stride);
  let flopsPerFilter := int_mul ipf flopsPerInstance in
  shp0 ← index shp 0;
  let retVal := int_mul flopsPerFilter shp0 in
  match c.(act) with
  | Some _ => mret (int_add retVal (int_mul shp0 ipf))
  | None => mret retVal
  end.

Definition Fwd (l : ptr) (x : Input) : M World Result :=
  match CheckOne x with
  | Some err => mret (wrapErr l "checking input: %w" [ArgError err])
  | None =>
    xN ← Input_Node x;
    c ← load l;
    ierr ← (if c.(initialized) then mret None else Init l [xN]);
    match ierr with
    | Some err =>
      mret (wrapErr l "Initializing a previously uninitialized Conv layer: %w" [ArgError err])
    | None =>
      c ← load l;
      '(cv, err) ← on_nodes (Conv2d xN c.(w) c.(kernelShape) c.(pad) c.(stride) c.(dilation));
      match err with
      | Some err =>
        xN' ← Input_Node x;
        xshp ← on_nodes (Node_Shape xN');
        wshp ← on_nodes (Node_Shape c.(w));
        mret (wrapErr l "applying conv2d %v %v: %w" [ArgShape xshp; ArgShape wshp; ArgError err])
      | None =>
        f ← callable c.(act);
        '(result, err) ← on_nodes (f cv);
        match err with
        | Some err => mret (wrapErr l "applying activation function: %w" [ArgError err])
        | None =>
          '(result, err) ← match c.(dropout) with
                           | Some d => on_nodes (Dropout result d)
                           | None => mret (result, None)
                           end;
          match err with
          | Some err => mret (wrapErr l "applying dropout: %w" [ArgError err])
          | None =>
            (if c.(computeFLOPs) then
               xshp ← on_nodes (Node_Shape xN);
               v ← doComputeFLOPs l xshp;
               store l (with_flops v)
             else mret tt);;
            on_nodes (Node_Shape result);;      (* the argument of logf *)
            mret (InputNode result)
          end
        end
      end
    end
  end.

(** ** Redefine *)

(** The [l, err := opt(l)] of the loop declares a new [l] scoped to the
    [if]: the function's own [l] is never reassigned, so every option is
    applied to the handle [Redefine] was called with. *)
Fixpoint Redefine (l : Layer) (opts : list ConsOpt) : M World (Layer * option error) :=
  match opts with
  | [] => mret (l, None)
  | opt :: opts' =>
    '(l', err) ← opt l;
    match err with
    | Some e => mret (l', Some e)
    | None => Redefine l opts'
    end
  end.

End Golgi.


(** * Notions used in the statements *)

(** ** The spec's closed form of the FLOPs estimate *)

(** The estimate as the specification words it, over the mathematical
    integers: [instancesPerFilter] is
    [floor((inputHeight - Kh + 2*padH)/strideH) + 1] times the analogous
    width term. *)
Definition spec_instancesPerFilter (Kh Kw padH padW strideH strideW inputHeight inputWidth : Z) : Z :=
  ((inputHeight - Kh + 2 * padH) `div` strideH + 1) *
  ((inputWidth - Kw + 2 * padW) `div` strideW + 1).

Definition spec_FLOPs (F C Kh Kw padH padW strideH strideW inputHeight inputWidth : Z)
           (activation : bool) : Z :=
  let n := C * Kh * Kw in
  let flopsPerInstance := n + 1 in
  let ipf := spec_instancesPerFilter Kh Kw padH padW strideH strideW inputHeight inputWidth in
  let flopsPerFilter := ipf * flopsPerInstance in
  let total := flopsPerFilter * F in
  if activation then total + F * ipf else total.

(** ** Successful application of a list of options *)

(** [applied l opts σ σ']: every option of [opts], called in turn on
    the handle [l], returned a nil error, taking the store from [σ] to
    [σ']. *)
Inductive applied (l : Layer) : list ConsOpt → World → World → Prop :=
| applied_nil σ : applied l [] σ σ
| applied_cons opt opts l' σ σ1 σ2 :
    opt l σ = (Ret (l', None), σ1) →
    applied l opts σ1 σ2 →
    applied l (opt :: opts) σ σ2.

(** ** Graph operations that only add nodes *)

(** A graph computation [extends] the graph when every node present
    before it is present, unchanged, after it. *)
Definition extends {A} (m : M (gmap loc Node) A) : Prop :=
  ∀ h, h ⊆ (m h).2.

Definition Engine_extends `{!Engine} : Prop :=
  (∀ x, extends (Rectify x)) ∧
  (∀ x w_ ks pd st dl, extends (Conv2d x w_ ks pd st dl)) ∧
  (∀ x d, extends (Dropout x d)).

Definition act_extends (c : Conv) : Prop :=
  ∀ f, act c = Some f → ∀ x, extends (f x).

(** ** What the engine's NewTensor is for *)

(** When [NewTensor] returns, the handle it returns points, in the
    graph it leaves, to a node of the graph, dtype, shape and name it
    was asked for. *)
Definition NewTensor_sound `{!Engine} : Prop :=
  ∀ g dt dims shp nm h t h',
    NewTensor g dt dims shp nm h = Ret (t, h') →
    ∃ q, t = Some q ∧ h' !! q = Some (mkNode g dt shp nm).

(** ** What a completed Init leaves *)

(** [Init_completes l xs σ σ']: the receiver [l] is a layer of [σ]
    whose size and kernel shape have two entries or more, the first of
    [xs] is a node of [σ]'s graph, [NewTensor], asked for a tensor of
    that node's graph and dtype, of the shape made of the first two
    entries of the size and of the kernel shape, and of the layer's
    name followed by "_w", returns, and [σ'] is [σ] with the graph as
    [NewTensor] leaves it, the layer's weight the handle [NewTensor]
    returned, and the layer's flag set. *)
Definition Init_completes `{!Engine} (l : ptr) (xs : list ptr) (σ σ' : World) : Prop :=
  ∃ (p a : loc) (c : Conv) (n : Node) (rest : list ptr) (s0 s1 k0 k1 : Z) (ss ks : list Z)
    (t : ptr) (h' : gmap loc Node),
    l = Some p ∧ xs = Some a :: rest ∧
    convs σ !! p = Some c ∧
    nodes σ !! a = Some n ∧
    size c = s0 :: s1 :: ss ∧
    kernelShape c = k0 :: k1 :: ks ∧
    NewTensor (node_graph n) (node_dtype n) 4 [s0; s1; k0; k1] (name c +:+ "_w") (nodes σ)
      = Ret (t, h') ∧
    σ' = mkWorld h' (<[p := with_initialized true (with_w t c)]> (convs σ)).

(** ** The state of an initialised layer *)

(** [layer_inv A N p t σ]: in the store [σ] the layer at [p] has its
    flag set and the weight handle [t]; besides, [A] holds of the layer
    and [N] of the graph's nodes. *)
Definition layer_inv (A : Conv → Prop) (N : gmap positive Node → Prop)
           (p : positive) (t : option positive) (σ : World) : Prop :=
  ∃ c, convs σ !! p = Some c ∧ initialized c = true ∧ w c = t ∧
       A c ∧ N (nodes σ).

(** The layer at [p] is initialised and its weight handle is [t]. *)
Definition initialized_with (p : positive) (t : option positive) : World → Prop :=
  layer_inv (λ _, True) (λ _, True) p t.

(** The layer at [p] is initialised, its weight handle is [t], the node
    [tn] is what [t] points to, and the layer's activation function
    only adds nodes. *)
Definition weight_bound (p t : positive) (tn : Node) : World → Prop :=
  layer_inv act_extends (λ h, h !! t = Some tn) p (Some t).

(** ** Notions of the proofs *)

(** A computation is [stateless] when its outcome is the same in every
    store and it leaves the store alone. *)
Definition stateless {S A} (m : M S A) : Prop := ∃ o, ∀ s, m s = (o, s).

(** [inv_step I m]: [m] keeps [I], whatever its outcome. *)
Definition inv_step {A} (I : World → Prop) (m : M World A) : Prop :=
  ∀ σ, I σ → I (m σ).2.

(** Entries as found in shapes, pads and strides. *)
Definition small (z : Z) : Prop := 0 <= z < 2 ^ 31.

(** ** Example data *)

(** A graph operation that adds one node and returns it. *)
Definition addNode (shp : Shape) (nm : string) : M (gmap loc Node) (ptr * option error) :=
  λ h, let p := fresh (dom h) in
       (Ret (Some p, None), <[p := mkNode None Float64 shp nm]> h).

Global Instance Dtype_eq_dec : EqDecision Dtype.
Proof. solve_decision. Defined.

Global Instance Node_eq_dec : EqDecision Node.
Proof. solve_decision. Defined.

(** The location of a node of the graph equal to [n], if there is one. *)
Definition find_node (h : gmap positive Node) (n : Node) : option positive :=
  fst <$> List.find (λ kv, bool_decide (kv.2 = n)) (map_to_list h).

(** A tensor allocation in the manner of the engine's: it panics on a
    negative size and on a dtype that is not a float, hands back the
    node the graph already holds of that graph, dtype, shape and name,
    and adds one otherwise. *)
Definition exampleNewTensor (g : option positive) (dt : Dtype) (dims : Z) (shp : list Z)
           (nm : string) (h : gmap positive Node)
  : outcome (option positive * gmap positive Node) :=
  if bool_decide (Forall (λ z, 0 <= z) shp)
     && match dt with Float64 | Float32 => true | _ => false end
  then match find_node h (mkNode g dt shp nm) with
       | Some q => Ret (Some q, h)
       | None => Ret (Some (fresh (dom h)), <[fresh (dom h) := mkNode g dt shp nm]> h)
       end
  else Panic (Explicit "initialiser: shape or dtype not taken").

Definition exampleEngine : Engine := {|
  NewTensor := exampleNewTensor;
  Rectify := λ _, addNode [] "rectify";
  Conv2d := λ _ _ _ _ _ _, addNode [] "conv2d";
  Dropout := λ _ _, addNode [] "dropout"
|}.

(** An option that rejects its layer the way an option rejects a layer
    type it does not handle: a nil layer and an error. *)
Definition rejecting (msg : string) : ConsOpt :=
  λ o, mret (LayerNil, Some (Errorf msg [typeOfLayer o])).

(** An option that writes the layer's name in place and hands the same
    layer back. *)
Definition naming (n : string) : ConsOpt :=
  λ o, match o with
       | LayerConv l => err ← SetName l n; mret (o, err)
       | _ => mret (LayerNil, Some (Errorf "WithName Unhandled Layer type: %T" [typeOfLayer o]))
       end.

(** An option that writes the layer's size in place. *)
Definition sizing (s : list Z) : ConsOpt :=
  λ o, match o with
       | LayerConv l => err ← SetSize l s; mret (o, err)
       | _ => mret (LayerNil, Some (Errorf "WithSize Unhandled Layer type: %T" [typeOfLayer o]))
       end.

(** A 1x3x32x32 input node at location 1, in graph 9. *)
Definition exampleInput : Node := mkNode (Some 9%positive) Float32 [1; 3; 32; 32] "x".

(** A rank-2 node. *)
Definition exampleMatrix : Node := mkNode (Some 9%positive) Float32 [4; 4] "m".

Definition exampleWorld : World :=
  mkWorld (<[2%positive := exampleMatrix]> {[ 1%positive := exampleInput ]}) ∅.

(** A 6x3x5x5 weight node at location 5 and a layer at location 1 that
    holds it, with the default pad and stride. *)
Definition exampleWeight : Node := mkNode (Some 9%positive) Float32 [6; 3; 5; 5] "conv_w".

Definition exampleLayer (a : option ActivationFunction) : Conv :=
  mkConv (Some 5%positive) "conv" [6; 3] [5; 5] [1; 1] [1; 1] [1; 1] None a true true 0.

Definition exampleInitialized (a : option ActivationFunction) : World :=
  mkWorld (<[5%positive := exampleWeight]> {[ 1%positive := exampleInput ]})
          {[ 1%positive := exampleLayer a ]}.

(** A layer at location 1 with its size set and not yet initialised. *)
Definition exampleConfiguredLayer : Conv :=
  mkConv None "conv" [6; 3] [5; 5] [1; 1] [1; 1] [1; 1] None
         (Some (@Rectify exampleEngine)) false true 0.

Definition exampleConfigured : World :=
  mkWorld (nodes exampleWorld) {[ 1%positive := exampleConfiguredLayer ]}.

(** [exampleConfigured] after [Init] on the input node: the example
    engine adds the weight as node 3. *)
Definition exampleInit : World :=
  mkWorld (<[3%positive := exampleWeight]> (nodes exampleConfigured))
          (<[1%positive := with_initialized true (with_w (Some 3%positive) exampleConfiguredLayer)]>
             (convs exampleConfigured)).

(** The same estimate configuration as [exampleLayer], held by another
    layer object (other name, size, flags and activation function) at
    another location of another store. *)
Definition exampleTwin : World :=
  mkWorld {[ 8%positive := mkNode None Float64 [6; 3; 5; 5] "other_w" ]}
          {[ 4%positive := mkConv (Some 8%positive) "other" [] [3; 3] [1; 1] [1; 1] [2; 2]
                                  (Some 7) (Some (λ _, addNode [1] "tanh")) false false 42 ]}.

(** The layer of [exampleInitialized None] after [naming "a"]. *)
Definition exampleRenamed : World :=
  mkWorld (nodes (exampleInitialized None))
          {[ 1%positive := with_name "a" (exampleLayer None) ]}.

Definition exampleRejection : error :=
  Errorf "unsupported" [ArgType "*golgi.Conv"].

(** ** Notions used in the further properties *)

(** [threaded l opts σ l' σ']: the loop of [NewConv] over [opts],
    started on the pointer [l] in the store [σ], ran to its end: every
    option returned a [*Conv] and a nil error, each was given the
    pointer the one before it returned, and the last returned [l'],
    leaving the store [σ']. *)
Inductive threaded :
  option positive → list ConsOpt → World → option positive → World → Prop :=
| threaded_nil l σ : threaded l [] σ l σ
| threaded_cons l l1 l2 opt opts σ σ1 σ2 :
    opt (LayerConv l) σ = (Ret (LayerConv l1, None), σ1) →
    threaded l1 opts σ1 l2 σ2 →
    threaded l (opt :: opts) σ l2 σ2.

(** The fields of a layer that configure it, as opposed to the weight
    handle, the flag and the cached estimate. *)
Definition same_config (c c' : Conv) : Prop :=
  name c = name c' ∧ size c = size c' ∧ kernelShape c = kernelShape c' ∧
  pad c = pad c' ∧ stride c = stride c' ∧ dilation c = dilation c' ∧
  dropout c = dropout c' ∧ act c = act c' ∧ computeFLOPs c = computeFLOPs c'.

(** [config_kept σ0 p c0 σ]: against the store [σ0], where [c0] was the
    layer at [p], the store [σ] has at [p] a layer of the same
    configuration, with the same cached estimate unless [computeFLOPs]
    is set, and every other layer as it was. *)
Definition config_kept (σ0 : World) (p : positive) (c0 : Conv) (σ : World) : Prop :=
  (∃ c, convs σ !! p = Some c ∧ same_config c0 c ∧
        (computeFLOPs c0 = false → flops c = flops c0)) ∧
  (∀ q, q ≠ p → convs σ !! q = convs σ0 !! q).

(** A call of one of the four setters. *)
Inductive setter : Type :=
| CallSetDropout (d : float64)
| CallSetSize (s : list Z)
| CallSetName (n : string)
| CallSetActivationFn (a : option ActivationFunction).

Definition call_setter (l : ptr) (s : setter) : M World (option error) :=
  match s with
  | CallSetDropout d => SetDropout l d
  | CallSetSize s => SetSize l s
  | CallSetName n => SetName l n
  | CallSetActivationFn a => SetActivationFn l a
  end.

(** The calls of a list, one after the other, with the error each
    call returned. *)
Fixpoint call_setters (l : ptr) (ss : list setter) : M World (list (option error)) :=
  match ss with
  | [] => mret []
  | s :: ss' =>
    e ← call_setter l s;
    es ← call_setters l ss';
    mret (e :: es)
  end.

(** An engine whose convolution reports an error. *)
Definition exampleConvError : error := Errorf "conv2d: shapes do not match" [].

Definition exampleFailingEngine : Engine := {|
  NewTensor := exampleNewTensor;
  Rectify := λ _, addNode [] "rectify";
  Conv2d := λ _ _ _ _ _ _, mret (None, Some exampleConvError);
  Dropout := λ _ _, addNode [] "dropout"
|}.

(** An option that hands back a layer of another type, with no error. *)
Definition retyping : ConsOpt :=
  λ _, mret (LayerOther "*golgi.FC" None, None).

(** [exampleWorld] with the struct [NewConv] allocates, and the same
    after [sizing [6; 3]]. *)
Definition exampleAllocated : World :=
  mkWorld (nodes exampleWorld) {[ 1%positive := @defaultConv exampleEngine ]}.

Definition exampleSized : World :=
  mkWorld (nodes exampleWorld)
          {[ 1%positive := with_size [6; 3] (@defaultConv exampleEngine) ]}.

(** [exampleSized] after [Init] on the input node, the example engine
    adding the weight as node 3. *)
Definition exampleBuilt : World :=
  mkWorld (<[3%positive := mkNode (Some 9%positive) Float32 [6; 3; 5; 5] "_w"]>
             (nodes exampleWorld))
          {[ 1%positive := with_initialized true
                             (with_w (Some 3%positive)
                                (with_size [6; 3] (@defaultConv exampleEngine))) ]}.

(** [exampleInitialized] with the rectifier, after a forward pass of
    [exampleEngine] on the input node: the convolution is the node 6,
    its activation the node 7, and the estimate is cached. *)
Definition exampleForwarded : World :=
  mkWorld (<[7%positive := mkNode None Float64 [] "rectify"]>
             (<[6%positive := mkNode None Float64 [] "conv2d"]>
                (nodes (exampleInitialized (Some (@Rectify exampleEngine))))))
          {[ 1%positive := with_flops 13860 (exampleLayer (Some (@Rectify exampleEngine))) ]}.

(** [exampleInitialized None] with a first stride of zero. *)
Definition exampleZeroStrideLayer : Conv :=
  mkConv (Some 5%positive) "conv" [6; 3] [5; 5] [1; 1] [0; 1] [1; 1] None None true true 0.

Definition exampleZeroStride : World :=
  mkWorld (nodes (exampleInitialized None)) {[ 1%positive := exampleZeroStrideLayer ]}.

(** * Properties *)

(** ** Stepping through monadic code *)

Lemma bind_unfold {S A B} (m : M S A) (f : A → M S B) (s : S) :
  (m ≫= f) s = match m s with
               | (Ret a, s') => f a s'
               | (Panic p, s') => (Panic p, s')
               end.
Proof. reflexivity. Qed.

Lemma bind_Ret {S A B} (m : M S A) (f : A → M S B) (s s' : S) (a : A) :
  m s = (Ret a, s') → (m ≫= f) s = f a s'.
Proof. intros Hm. rewrite bind_unfold, Hm. reflexivity. Qed.

Lemma bind_Panic {S A B} (m : M S A) (f : A → M S B) (s s' : S) (k : panic) :
  m s = (Panic k, s') → (m ≫= f) s = (Panic k, s').
Proof. intros Hm. rewrite bind_unfold, Hm. reflexivity. Qed.

Lemma mret_run {S A} (a : A) (s : S) : (mret a : M S A) s = (Ret a, s).
Proof. reflexivity. Qed.

Lemma bind_mret {S A B} (a : A) (f : A → M S B) (s : S) : ((mret a : M S A) ≫= f) s = f a s.
Proof. reflexivity. Qed.

Lemma bind_fault {S A B} (k : panic) (f : A → M S B) (s : S) :
  ((fault k : M S A) ≫= f) s = (Panic k, s).
Proof. reflexivity. Qed.

(** One step of a computation whose head is known: [mstep H] uses the
    equation [H] for the head; [mstep] alone steps over a [mret]. *)
Tactic Notation "mstep" uconstr(H) :=
  rewrite bind_unfold, H; cbv beta iota.
Tactic Notation "mstep" uconstr(H) "by" tactic3(t) :=
  rewrite bind_unfold; erewrite H by t; cbv beta iota.
Tactic Notation "mstep" := rewrite bind_mret.

Lemma index_Some {S A} (s : list A) (i : nat) (a : A) (st : S) :
  s !! i = Some a → index s i st = (Ret a, st).
Proof. intros Hs. unfold index. rewrite Hs. reflexivity. Qed.




Lemma int_div_nonzero {S} (a b : Z) (st : S) :
  b ≠ 0 → int_div a b st = (Ret (wrap (a `quot` b)), st).
Proof. intros Hb. unfold int_div. destruct (decide (b = 0)); [contradiction | reflexivity]. Qed.

Lemma World_eta (σ : World) : mkWorld (nodes σ) (convs σ) = σ.
Proof. destruct σ; reflexivity. Qed.

Lemma load_Some (σ : World) (p : loc) (c : Conv) :
  convs σ !! p = Some c → load (Some p) σ = (Ret c, σ).
Proof. intros Hc. unfold load. simpl. rewrite Hc. reflexivity. Qed.



Lemma store_Some (σ : World) (p : loc) (c : Conv) (f : Conv → Conv) :
  convs σ !! p = Some c →
  store (Some p) f σ = (Ret tt, mkWorld (nodes σ) (<[p := f c]> (convs σ))).
Proof. intros Hc. unfold store. rewrite Hc. reflexivity. Qed.

Lemma on_nodes_read {A} (f : Node → A) (σ : World) (a : loc) (n : Node) :
  nodes σ !! a = Some n → on_nodes (Node_read f (Some a)) σ = (Ret (f n), σ).
Proof.
  intros Hn. unfold on_nodes, Node_read. simpl. rewrite Hn.
  rewrite World_eta. reflexivity.
Qed.


Lemma on_nodes_read_state {A} (f : Node → A) (x : ptr) (σ : World) :
  (on_nodes (Node_read f x) σ).2 = σ.
Proof.
  unfold on_nodes, Node_read. destruct (x ≫= _); simpl; apply World_eta.
Qed.

Lemma on_nodes_convs {A} (m : M (gmap loc Node) A) (σ : World) :
  convs (on_nodes m σ).2 = convs σ.
Proof. unfold on_nodes. destruct (m (nodes σ)). reflexivity. Qed.

Lemma on_nodes_nodes {A} (m : M (gmap loc Node) A) (σ : World) :
  nodes (on_nodes m σ).2 = (m (nodes σ)).2.
Proof. unfold on_nodes. destruct (m (nodes σ)). reflexivity. Qed.

Lemma fresh_node_None (h : gmap loc Node) : h !! fresh (dom h) = None.
Proof. apply not_elem_of_dom. apply is_fresh. Qed.

Lemma fresh_conv_None (h : gmap loc Conv) : h !! fresh (dom h) = None.
Proof. apply not_elem_of_dom. apply is_fresh. Qed.

Lemma addNode_extends (shp : Shape) (nm : string) : extends (addNode shp nm).
Proof. intros h. simpl. apply insert_subseteq, fresh_node_None. Qed.

Lemma exampleEngine_extends : @Engine_extends exampleEngine.
Proof. repeat split; intros; apply addNode_extends. Qed.

(** ** Redefine *)

(** C6. [Redefine] with an empty option list returns the layer it was
    given and a nil error, and leaves the store as it was. *)
Theorem Redefine_no_options (l : Layer) (σ : World) :
  Redefine l [] σ = (Ret (l, None), σ).
Proof. reflexivity. Qed.

Lemma Redefine_cons_ok (l l' : Layer) (opt : ConsOpt) (opts : list ConsOpt) (σ σ1 : World) :
  opt l σ = (Ret (l', None), σ1) →
  Redefine l (opt :: opts) σ = Redefine l opts σ1.
Proof. intros Hopt. simpl. rewrite (bind_Ret _ _ _ _ _ Hopt). reflexivity. Qed.

Lemma Redefine_cons_fail (l l' : Layer) (e : error) (opt : ConsOpt) (opts : list ConsOpt)
      (σ σ1 : World) :
  opt l σ = (Ret (l', Some e), σ1) →
  Redefine l (opt :: opts) σ = (Ret (l', Some e), σ1).
Proof. intros Hopt. simpl. rewrite (bind_Ret _ _ _ _ _ Hopt). reflexivity. Qed.

(** When all options succeed, the handle returned is the one passed in. *)
Lemma Redefine_applied (l : Layer) (opts : list ConsOpt) (σ σ' : World) :
  applied l opts σ σ' → Redefine l opts σ = (Ret (l, None), σ').
Proof.
  induction 1 as [σ | opt opts l' σ σ1 σ2 Hopt _ IH].
  - reflexivity.
  - rewrite (Redefine_cons_ok _ _ _ _ _ _ Hopt). exact IH.
Qed.

(** C7, as amended. [Redefine] calls the options in order; when the
    options before [opt] all succeed and [opt] fails, it returns [opt]'s
    error together with the layer [opt] itself returned, the store is as
    [opt] left it, and the options after [opt] play no part. *)
Theorem Redefine_first_failure (l l' : Layer) (e : error) (pre post : list ConsOpt)
        (opt : ConsOpt) (σ σ1 σ2 : World) :
  applied l pre σ σ1 →
  opt l σ1 = (Ret (l', Some e), σ2) →
  Redefine l (pre ++ opt :: post) σ = (Ret (l', Some e), σ2).
Proof.
  intros Hpre Hopt.
  induction Hpre as [σ | o opts l0 σ σa σb Ho _ IH].
  - simpl app. exact (Redefine_cons_fail _ _ _ _ _ _ _ Hopt).
  - simpl app. rewrite (Redefine_cons_ok _ _ _ _ _ _ Ho). exact (IH Hopt).
Qed.

Lemma naming_applied :
  applied (LayerConv (Some 1%positive)) [naming "a"] (exampleInitialized None) exampleRenamed.
Proof.
  eapply applied_cons; [|apply applied_nil].
  vm_compute. reflexivity.
Defined.

(** C7, the claim as worded fails: the second option rejects the layer
    and returns a nil layer with its error; [Redefine] hands back that
    nil layer, not the layer as it was before the failing option. *)
Lemma Redefine_failure_not_prior_layer :
  let l := LayerConv (Some 1%positive) in
  let opts := [naming "a"; rejecting "unsupported"; naming "b"] in
  applied l [naming "a"] (exampleInitialized None) exampleRenamed ∧
  rejecting "unsupported" l exampleRenamed = (Ret (LayerNil, Some exampleRejection), exampleRenamed) ∧
  Redefine l opts (exampleInitialized None) = (Ret (LayerNil, Some exampleRejection), exampleRenamed) ∧
  Redefine l opts (exampleInitialized None) ≠ (Ret (l, Some exampleRejection), exampleRenamed).
Proof.
  split; [exact naming_applied|].
  split; [reflexivity|].
  split; [vm_compute; reflexivity|].
  vm_compute. intros H. discriminate H.
Qed.

Lemma Redefine_first_failure_witness :
  Redefine (LayerConv (Some 1%positive))
           ([naming "a"] ++ rejecting "unsupported" :: [naming "b"])
           (exampleInitialized None)
  = (Ret (LayerNil, Some exampleRejection), exampleRenamed).
Proof.
  apply (Redefine_first_failure (LayerConv (Some 1%positive)) LayerNil exampleRejection
           [naming "a"] [naming "b"] (rejecting "unsupported")
           (exampleInitialized None) exampleRenamed exampleRenamed).
  - exact naming_applied.
  - reflexivity.
Defined.

Section ConvProperties.
Context `{!Engine}.

(** ** NewConv and ConsConv *)

(** C8. [NewConv] with no options returns a nil error and a fresh
    layer whose activation function is the rectifier, kernel shape
    (5,5), pad (1,1), stride (1,1), dilation (1,1); every other field
    has its zero value. *)
Theorem NewConv_defaults (σ : World) :
  ∃ (p : loc) (c : Conv),
    NewConv [] σ = (Ret (Some p, None), mkWorld (nodes σ) (<[p := c]> (convs σ))) ∧
    convs σ !! p = None ∧
    act c = Some Rectify ∧
    kernelShape c = [5; 5] ∧
    pad c = [1; 1] ∧
    stride c = [1; 1] ∧
    dilation c = [1; 1] ∧
    w c = None ∧ name c = "" ∧ size c = [] ∧ dropout c = None ∧
    initialized c = false ∧ computeFLOPs c = false ∧ flops c = 0.
Proof.
  exists (fresh (dom (convs σ))), defaultConv.
  split; [reflexivity|].
  split; [apply fresh_conv_None|].
  repeat split.
Qed.

Lemma Dims_rank_check (s : Shape) :
  bool_decide (Dims s ≠ 4) || bool_decide (Dims s = 0) = bool_decide (length s ≠ 4%nat).
Proof.
  unfold Dims.
  destruct (decide (length s = 4%nat)) as [Hl|Hl].
  - rewrite Hl. reflexivity.
  - rewrite (bool_decide_eq_true_2 (length s ≠ 4%nat)) by assumption.
    rewrite (bool_decide_eq_true_2 (Z.of_nat (length s) ≠ 4)) by lia.
    reflexivity.
Qed.

(** C4. [ConsConv] returns an error (and a nil layer) for every input
    whose node handle is nil; for an input node whose shape does not
    have rank 4 it returns an error that carries that shape; for an
    input node of rank 4 neither check fires and construction goes on
    with [NewConv] and [Init]. *)
Theorem ConsConv_input_checks (in_ : Input) (opts : list ConsOpt) (σ : World) :
  (Input_Node in_ σ = (Ret None, σ) →
   ConsConv in_ opts σ =
   (Ret (LayerNil, Some (Errorf "ConsConv expects a *Node. Got input %v of  %T instead"
                                [argOfInput in_; typeOfInput in_])), σ)) ∧
  (∀ (a : loc) (n : Node),
     in_ = InputNode (Some a) → nodes σ !! a = Some n →
     length (node_shape n) ≠ 4%nat →
     ConsConv in_ opts σ =
     (Ret (LayerNil, Some (Errorf "Expected shape is either a vector or a matrix, got %v"
                                  [ArgShape (node_shape n)])), σ)) ∧
  (∀ (a : loc) (n : Node),
     in_ = InputNode (Some a) → nodes σ !! a = Some n →
     length (node_shape n) = 4%nat →
     ConsConv in_ opts σ =
     ('(l, err) ← NewConv opts;
      match err with
      | Some e => mret (LayerNil, Some e)
      | None =>
        err ← Init l [Some a];
        match err with
        | Some e => mret (LayerNil, Some e)
        | None => mret (LayerConv l, None)
        end
      end) σ).
Proof.
  split; [|split].
  - intros Hnil. unfold ConsConv.
    rewrite (bind_Ret _ _ _ _ _ Hnil). reflexivity.
  - intros a n -> Hn Hrank. unfold ConsConv.
    simpl (Input_Node _). mstep. unfold Node_Shape. mstep (on_nodes_read _ _ _ _ Hn).
    rewrite Dims_rank_check, bool_decide_eq_true_2 by assumption.
    reflexivity.
  - intros a n -> Hn Hrank. unfold ConsConv.
    simpl (Input_Node _). mstep. unfold Node_Shape. mstep (on_nodes_read _ _ _ _ Hn).
    rewrite Dims_rank_check, bool_decide_eq_false_2 by (intros H'; apply H'; assumption).
    reflexivity.
Qed.

(** ** The FLOPs estimate *)

Lemma Node_read_run {A} (f : Node → A) (x : ptr) (σ : World) :
  on_nodes (Node_read f x) σ =
  (match x ≫= (nodes σ !!.) with
   | Some n => Ret (f n)
   | None => Panic NilDereference
   end, σ).
Proof.
  unfold on_nodes, Node_read. destruct (x ≫= _); rewrite World_eta; reflexivity.
Qed.

Lemma stateless_mret {S A} (a : A) : stateless (mret a : M S A).
Proof. exists (Ret a). reflexivity. Qed.

Lemma stateless_fault {S A} (k : panic) : stateless (fault k : M S A).
Proof. exists (Panic k). reflexivity. Qed.

Lemma stateless_index {S A} (s : list A) (i : nat) : stateless (index s i : M S A).
Proof. unfold index. destruct (s !! i); [apply stateless_mret | apply stateless_fault]. Qed.

Lemma stateless_int_div {S} (a b : Z) : stateless (int_div a b : M S Z).
Proof.
  unfold int_div. destruct (decide (b = 0)); [apply stateless_fault | apply stateless_mret].
Qed.

Lemma stateless_bind {S A B} (m : M S A) (f : A → M S B) :
  stateless m → (∀ a, stateless (f a)) → stateless (m ≫= f).
Proof.
  intros [[a|k] Hm] Hf.
  - destruct (Hf a) as [o Ho]. exists o. intros s.
    rewrite (bind_Ret _ _ _ _ _ (Hm s)). apply Ho.
  - exists (Panic k). intros s. apply (bind_Panic _ _ _ _ _ (Hm s)).
Qed.

Lemma stateless_state {S A} (m : M S A) (s : S) : stateless m → (m s).2 = s.
Proof. intros [o Ho]. rewrite Ho. reflexivity. Qed.

Lemma stateless_outcome {S A} (m : M S A) (s s' : S) : stateless m → (m s).1 = (m s').1.
Proof. intros [o Ho]. rewrite !Ho. reflexivity. Qed.

Ltac stateless_tac :=
  repeat first
    [ apply stateless_mret | apply stateless_fault | apply stateless_index
    | apply stateless_int_div
    | apply stateless_bind; [|intros ?]
    | match goal with |- stateless (match ?x with _ => _ end) => destruct x end ].

(** [instancesPerFilter] neither reads nor writes the store. *)
Lemma instancesPerFilter_stateless {S} (shp input pad_ stride_ : list Z) :
  stateless (instancesPerFilter shp input pad_ stride_ : M S Z).
Proof. unfold instancesPerFilter. stateless_tac. Qed.

(** What [doComputeFLOPs] does once the weight's shape is read. *)
Lemma doComputeFLOPs_unfold (σ : World) (p : loc) (c : Conv) (input : Shape) :
  convs σ !! p = Some c →
  doComputeFLOPs (Some p) input σ =
  match w c ≫= (nodes σ !!.) with
  | None => (Panic NilDereference, σ)
  | Some wn =>
    let shp := node_shape wn in
    (shp1 ← index shp 1;
     shp2 ← index shp 2;
     shp3 ← index shp 3;
     ipf ← instancesPerFilter shp input c.(pad) c.(stride);
     shp0 ← index shp 0;
     let retVal := int_mul (int_mul ipf (int_add (int_mul (int_mul shp1 shp2) shp3) 1)) shp0 in
     match c.(act) with
     | Some _ => mret (int_add retVal (int_mul shp0 ipf))
     | None => mret retVal
     end) σ
  end.
Proof.
  intros Hc. unfold doComputeFLOPs.
  mstep (load_Some _ _ _ Hc).
  unfold Node_Shape. mstep Node_read_run.
  destruct (w c ≫= _); reflexivity.
Qed.

(** The estimate reads the layer's weight shape, pad, stride and
    whether an activation function is set, and nothing else; it writes
    nothing. *)
Lemma doComputeFLOPs_reads (σ σ' : World) (p p' : loc) (c c' : Conv) (input : Shape) :
  convs σ !! p = Some c →
  convs σ' !! p' = Some c' →
  node_shape <$> (w c ≫= (nodes σ !!.)) = node_shape <$> (w c' ≫= (nodes σ' !!.)) →
  pad c = pad c' →
  stride c = stride c' →
  (is_Some (act c) ↔ is_Some (act c')) →
  (doComputeFLOPs (Some p) input σ).2 = σ ∧
  (doComputeFLOPs (Some p) input σ).1 = (doComputeFLOPs (Some p') input σ').1.
Proof.
  intros Hc Hc' Hshp Hpad Hstride Hact.
  rewrite (doComputeFLOPs_unfold _ _ _ _ Hc), (doComputeFLOPs_unfold _ _ _ _ Hc').
  rewrite <- Hpad, <- Hstride.
  assert (Hact' : match act c with Some _ => true | None => false end
                  = match act c' with Some _ => true | None => false end).
  { destruct (act c), (act c'); try reflexivity.
    - destruct Hact as [Hact _]. destruct Hact as [? [=]]. eauto.
    - destruct Hact as [_ Hact]. destruct Hact as [? [=]]. eauto. }
  destruct (w c ≫= _) as [wn|], (w c' ≫= _) as [wn'|]; simpl in Hshp; try discriminate;
    [|split; reflexivity].
  injection Hshp as Hshp. rewrite <- Hshp. cbv zeta.
  split.
  - apply stateless_state. stateless_tac.
  - destruct (act c), (act c'); try discriminate; apply stateless_outcome; stateless_tac;
      apply instancesPerFilter_stateless.
Qed.

Lemma wrap_in_int (z : Z) : in_int z → wrap z = z.
Proof.
  unfold in_int, int_min, int_max, wrap. intros Hz.
  rewrite Z.mod_small by lia. lia.
Qed.

(** C3. The estimate is a function of the weight shape, pad, stride,
    activation setting and input shape alone, and calling it leaves the
    store untouched: two calls that agree on these, in whatever stores
    and on whatever layer objects, have the same outcome, and two calls
    in a row return the same integer. *)
Theorem doComputeFLOPs_deterministic (σ σ' : World) (p p' : loc) (c c' : Conv) (input : Shape) :
  convs σ !! p = Some c →
  convs σ' !! p' = Some c' →
  node_shape <$> (w c ≫= (nodes σ !!.)) = node_shape <$> (w c' ≫= (nodes σ' !!.)) →
  pad c = pad c' →
  stride c = stride c' →
  (is_Some (act c) ↔ is_Some (act c')) →
  (doComputeFLOPs (Some p) input σ).1 = (doComputeFLOPs (Some p') input σ').1 ∧
  (doComputeFLOPs (Some p) input σ).2 = σ ∧
  ∀ (v1 v2 : Z) (σ2 : World),
    (v1 ← doComputeFLOPs (Some p) input;
     v2 ← doComputeFLOPs (Some p) input;
     mret (v1, v2)) σ = (Ret (v1, v2), σ2) →
    v1 = v2 ∧ σ2 = σ.
Proof.
  intros Hc Hc' Hshp Hpad Hstride Hact.
  destruct (doComputeFLOPs_reads σ σ' p p' c c' input Hc Hc' Hshp Hpad Hstride Hact)
    as [Hstate Hout].
  split; [exact Hout|]. split; [exact Hstate|].
  intros v1 v2 σ2. rewrite bind_unfold.
  destruct (doComputeFLOPs (Some p) input σ) as [[v|k] σ1] eqn:Hrun; [|discriminate].
  simpl in Hstate. subst σ1. rewrite bind_unfold, Hrun. rewrite mret_run.
  intros [= <- <- <-]. split; reflexivity.
Qed.

(** C2, at the spec's scenario. For the weight shape (6,3,5,5), pad
    (1,1), stride (1,1) and an input of shape (batch,3,32,32), the
    estimate of a layer with an activation function exceeds the
    estimate of the same layer without one by 180, where F times the
    spec's [instancesPerFilter] is 6 * 900 = 5400: the term added is F
    times the instance count the code takes from the channel and
    height entries of the input shape (the slip of C1). *)
Theorem activation_delta_spec_scenario (σ : World) (p q : positive) (c : Conv) (wn : Node)
        (f : ActivationFunction) (batch : Z) :
  convs σ !! p = Some c →
  w c = Some q →
  nodes σ !! q = Some wn →
  node_shape wn = [6; 3; 5; 5] →
  pad c = [1; 1] →
  stride c = [1; 1] →
  let σ_none := mkWorld (nodes σ) (<[p := with_act None c]> (convs σ)) in
  let σ_act := mkWorld (nodes σ) (<[p := with_act (Some f) c]> (convs σ)) in
  ∃ v_none v_act : Z,
    doComputeFLOPs (Some p) [batch; 3; 32; 32] σ_none = (Ret v_none, σ_none) ∧
    doComputeFLOPs (Some p) [batch; 3; 32; 32] σ_act = (Ret v_act, σ_act) ∧
    v_act - v_none = 180 ∧
    6 * spec_instancesPerFilter 5 5 1 1 1 1 32 32 = 5400 ∧
    spec_FLOPs 6 3 5 5 1 1 1 1 32 32 true - spec_FLOPs 6 3 5 5 1 1 1 1 32 32 false = 5400.
Proof.
  intros Hc Hw Hq Hshp Hpad Hstride σ_none σ_act.
  exists 13680, 13860.
  split; [|split; [|split; [reflexivity | split; reflexivity]]].
  - rewrite (doComputeFLOPs_unfold σ_none p (with_act None c) [batch; 3; 32; 32])
      by apply lookup_insert_eq.
    simpl (w _). rewrite Hw. simpl (Some q ≫= _). simpl (nodes _). rewrite Hq, Hshp.
    simpl (pad _). simpl (stride _). rewrite Hpad, Hstride. cbv zeta.
    simpl (act _). vm_compute. reflexivity.
  - rewrite (doComputeFLOPs_unfold σ_act p (with_act (Some f) c) [batch; 3; 32; 32])
      by apply lookup_insert_eq.
    simpl (w _). rewrite Hw. simpl (Some q ≫= _). simpl (nodes _). rewrite Hq, Hshp.
    simpl (pad _). simpl (stride _). rewrite Hpad, Hstride. cbv zeta.
    simpl (act _). vm_compute. reflexivity.
Qed.

(** C1, at the spec's scenario. For the weight shape (6,3,5,5), pad
    (1,1), stride (1,1) and an input of shape (batch,3,32,32),
    [doComputeFLOPs] returns 13680 without an activation function and
    13860 with one, where the spec's closed form gives 410400 and
    415800: the code takes the entries 1 and 2 of the four-dimensional
    input shape (channels and height) for rows and columns. *)
Theorem doComputeFLOPs_spec_scenario (σ : World) (p q : loc) (c : Conv) (wn : Node) (batch : Z) :
  convs σ !! p = Some c →
  w c = Some q →
  nodes σ !! q = Some wn →
  node_shape wn = [6; 3; 5; 5] →
  pad c = [1; 1] →
  stride c = [1; 1] →
  doComputeFLOPs (Some p) [batch; 3; 32; 32] σ
  = (Ret (match act c with Some _ => 13860 | None => 13680 end), σ) ∧
  spec_FLOPs 6 3 5 5 1 1 1 1 32 32 (match act c with Some _ => true | None => false end)
  = match act c with Some _ => 415800 | None => 410400 end.
Proof.
  intros Hc Hw Hq Hshp Hpad Hstride.
  rewrite (doComputeFLOPs_unfold _ _ _ _ Hc).
  rewrite Hw. simpl (Some q ≫= _). rewrite Hq, Hshp, Hpad, Hstride. cbv zeta.
  destruct (act c); split; vm_compute; reflexivity.
Qed.

(** *** What the code computes, in closed form *)

Lemma wrap_small_sub (a b : Z) : small a → small b → int_sub a b = a - b.
Proof.
  unfold small, int_sub. intros Ha Hb. apply wrap_in_int.
  unfold in_int, int_min, int_max. lia.
Qed.

(** One factor of [instancesPerFilter], without overflow: Go's
    truncating division agrees with the floor on these numbers. *)
Lemma instances_along (i k pd st : Z) :
  small i → small k → small pd → small st → 1 <= st → k <= i + 2 * pd →
  int_add (wrap (int_add (int_sub i k) (int_mul 2 pd) `quot` st)) 1
  = (i - k + 2 * pd) `div` st + 1 ∧
  1 <= (i - k + 2 * pd) `div` st + 1 <= 2 ^ 33.
Proof.
  unfold small. intros Hi Hk Hpd Hst Hst1 Hnum.
  rewrite wrap_small_sub by (unfold small; lia).
  unfold int_mul, int_add.
  rewrite (wrap_in_int (2 * pd)) by (unfold in_int, int_min, int_max; lia).
  rewrite (wrap_in_int (i - k + 2 * pd)) by (unfold in_int, int_min, int_max; lia).
  rewrite Z.quot_div_nonneg by lia.
  assert (Hq : 0 <= (i - k + 2 * pd) `div` st <= i - k + 2 * pd).
  { split; [apply Z.div_pos; lia|]. apply Z.div_le_upper_bound; nia. }
  rewrite (wrap_in_int ((i - k + 2 * pd) `div` st))
    by (unfold in_int, int_min, int_max; lia).
  rewrite wrap_in_int by (unfold in_int, int_min, int_max; lia).
  lia.
Qed.

(** The estimate's arithmetic, without overflow. *)
Lemma estimate_arith (F C Kh Kw rows cols : Z) :
  1 <= F → small C → small Kh → small Kw → 1 <= rows → 1 <= cols →
  rows * cols * (C * Kh * Kw + 1) * F + F * (rows * cols) <= int_max →
  let ipf := int_mul rows cols in
  let retVal := int_mul (int_mul ipf (int_add (int_mul (int_mul C Kh) Kw) 1)) F in
  ipf = rows * cols ∧
  retVal = rows * cols * (C * Kh * Kw + 1) * F ∧
  int_add retVal (int_mul F ipf) = rows * cols * (C * Kh * Kw + 1) * F + F * (rows * cols).
Proof.
  unfold small, int_max. intros HF HC HKh HKw Hrows Hcols Htotal.
  assert (Hn : 0 <= C * Kh * Kw) by nia.
  assert (Hipf : 1 <= rows * cols) by nia.
  assert (Hfpf : C * Kh * Kw + 1 <= rows * cols * (C * Kh * Kw + 1)) by nia.
  assert (Htot : rows * cols * (C * Kh * Kw + 1) <= rows * cols * (C * Kh * Kw + 1) * F) by nia.
  assert (Hact : rows * cols <= F * (rows * cols)) by nia.
  assert (Hipf' : rows * cols <= rows * cols * (C * Kh * Kw + 1)) by nia.
  cbv zeta. unfold int_mul, int_add.
  rewrite (wrap_in_int (rows * cols)) by (unfold in_int, int_min, int_max; lia).
  rewrite (wrap_in_int (C * Kh)) by (unfold in_int, int_min, int_max; nia).
  rewrite (wrap_in_int (C * Kh * Kw)) by (unfold in_int, int_min, int_max; lia).
  rewrite (wrap_in_int (C * Kh * Kw + 1)) by (unfold in_int, int_min, int_max; lia).
  rewrite (wrap_in_int (rows * cols * (C * Kh * Kw + 1)))
    by (unfold in_int, int_min, int_max; lia).
  rewrite (wrap_in_int (rows * cols * (C * Kh * Kw + 1) * F))
    by (unfold in_int, int_min, int_max; lia).
  rewrite (wrap_in_int (F * (rows * cols))) by (unfold in_int, int_min, int_max; lia).
  rewrite wrap_in_int by (unfold in_int, int_min, int_max; lia).
  repeat split; reflexivity.
Qed.

(** [instancesPerFilter] on shapes long enough and strides other than
    zero. *)
Lemma instancesPerFilter_run {S} (F C Kh Kw b i1 i2 ph pw sh sw : Z)
      (irest prest srest : list Z) (s : S) :
  sh ≠ 0 → sw ≠ 0 →
  instancesPerFilter [F; C; Kh; Kw] (b :: i1 :: i2 :: irest) (ph :: pw :: prest)
                     (sh :: sw :: srest) s
  = (Ret (int_mul
            (int_add (wrap (int_add (int_sub i1 Kh) (int_mul 2 ph) `quot` sh)) 1)
            (int_add (wrap (int_add (int_sub i2 Kw) (int_mul 2 pw) `quot` sw)) 1)), s).
Proof.
  intros Hsh Hsw. unfold instancesPerFilter.
  do 4 (mstep (index_Some (S:=S)) by reflexivity).
  mstep (int_div_nonzero (S:=S)) by exact Hsh.
  do 4 (mstep (index_Some (S:=S)) by reflexivity).
  mstep (int_div_nonzero (S:=S)) by exact Hsw.
  reflexivity.
Qed.

(** X8. On shapes of ordinary size, and as long as the result fits an
    [int], [doComputeFLOPs] returns the spec's closed form evaluated at
    the entries 1 and 2 of the input shape. For the four-dimensional
    (batch, channel, height, width) shape [Fwd] passes these are the
    channel count and the height, where the spec has the height and the
    width. *)
Lemma doComputeFLOPs_closed_form (σ : World) (p q : positive) (c : Conv) (wn : Node)
      (F C Kh Kw b i1 i2 ph pw sh sw : Z) (irest prest srest : list Z) :
  convs σ !! p = Some c →
  w c = Some q →
  nodes σ !! q = Some wn →
  node_shape wn = [F; C; Kh; Kw] →
  pad c = ph :: pw :: prest →
  stride c = sh :: sw :: srest →
  1 <= F → small C → small Kh → small Kw →
  small i1 → small i2 → small ph → small pw → small sh → small sw →
  1 <= sh → 1 <= sw → Kh <= i1 + 2 * ph → Kw <= i2 + 2 * pw →
  spec_FLOPs F C Kh Kw ph pw sh sw i1 i2 true <= int_max →
  doComputeFLOPs (Some p) (b :: i1 :: i2 :: irest) σ
  = (Ret (spec_FLOPs F C Kh Kw ph pw sh sw i1 i2
                     (match act c with Some _ => true | None => false end)), σ).
Proof.
  intros Hc Hw Hq Hshp Hpad Hstride HF HC HKh HKw Hi1 Hi2 Hph Hpw Hsh Hsw Hsh1 Hsw1
         Hrows Hcols Htotal.
  rewrite (doComputeFLOPs_unfold _ _ _ _ Hc), Hw. simpl (Some q ≫= _).
  rewrite Hq, Hshp, Hpad, Hstride. cbv zeta.
  do 3 (mstep (index_Some (S:=World)) by reflexivity).
  destruct (instances_along i1 Kh ph sh Hi1 HKh Hph Hsh Hsh1 Hrows) as [Erows Brows].
  destruct (instances_along i2 Kw pw sw Hi2 HKw Hpw Hsw Hsw1 Hcols) as [Ecols Bcols].
  mstep (instancesPerFilter_run (S:=World)) by lia.
  mstep (index_Some (S:=World)) by reflexivity.
  rewrite Erows, Ecols.
  unfold spec_FLOPs, spec_instancesPerFilter in Htotal |- *.
  destruct (estimate_arith F C Kh Kw _ _ HF HC HKh HKw (proj1 Brows) (proj1 Bcols) Htotal)
    as (Eipf & Eret & Eact).
  cbv zeta in Eipf, Eret, Eact.
  destruct (act c); rewrite mret_run.
  - rewrite Eact. reflexivity.
  - rewrite Eret. reflexivity.
Qed.

(** ** Init and Shape *)

(** A property of every outcome of [m ≫= f] that holds of faults and of
    every outcome of [f]. *)
Lemma bind_outcome {S A B} (Q : outcome B → Prop) (m : M S A) (f : A → M S B) (s : S) :
  (∀ k, Q (Panic k)) → (∀ a s', Q (f a s').1) → Q ((m ≫= f) s).1.
Proof.
  intros Hk Hf. rewrite bind_unfold.
  destruct (m s) as [[a|k] s']; [apply Hf | apply Hk].
Qed.

Lemma bind_readonly {S A B} (m : M S A) (f : A → M S B) (s : S) :
  (m s).2 = s →
  (m ≫= f) s = match (m s).1 with
               | Ret a => f a s
               | Panic k => (Panic k, s)
               end.
Proof.
  intros Hm. rewrite bind_unfold. destruct (m s) as [[a|k] s']; simpl in *; subst; reflexivity.
Qed.

Lemma load_readonly (l : option positive) (σ : World) : (load l σ).2 = σ.
Proof. unfold load. destruct (l ≫= _); reflexivity. Qed.

Lemma load_outcome (l : option positive) (σ : World) (c : Conv) :
  (load l σ).1 = Ret c → ∃ p, l = Some p ∧ convs σ !! p = Some c.
Proof.
  unfold load. destruct (l ≫= _) as [c'|] eqn:Hl; simpl; [|discriminate].
  intros [= ->]. destruct l as [p|]; [|discriminate]. eauto.
Qed.

Lemma index_readonly {S A} (s : list A) (i : nat) (st : S) : (index s i st).2 = st.
Proof. apply stateless_state, stateless_index. Qed.

Lemma index_outcome {S A} (s : list A) (i : nat) (st : S) (a : A) :
  (index s i st).1 = Ret a → s !! i = Some a.
Proof. unfold index. destruct (s !! i); simpl; [intros [= ->]; reflexivity | discriminate]. Qed.

Lemma read_outcome {A} (f : Node → A) (x : ptr) (σ : World) (v : A) :
  (on_nodes (Node_read f x) σ).1 = Ret v →
  ∃ a n, x = Some a ∧ nodes σ !! a = Some n ∧ v = f n.
Proof.
  rewrite Node_read_run. simpl. destruct x as [a|]; simpl; [|discriminate].
  destruct (nodes σ !! a) as [n|] eqn:Hn; [|discriminate].
  intros [= <-]. eauto.
Qed.

Lemma Init_never_errors (l : ptr) (xs : list ptr) (σ : World) (e : error) :
  (Init l xs σ).1 ≠ Ret (Some e).
Proof.
  unfold Init.
  repeat (apply bind_outcome; [discriminate | intros ? ?]).
  rewrite mret_run. discriminate.
Qed.

Lemma Init_first_argument (l : ptr) (x : ptr) (rest : list ptr) (σ : World) :
  Init l (x :: rest) σ = Init l [x] σ.
Proof. reflexivity. Qed.

(** The engine's [NewTensor] as [Init] calls it. *)
Lemma NewTensor_returns (g : ptr) (of_ : Dtype) (dims : Z) (shp : Shape) (nm : string)
      (σ : World) (t : ptr) (h' : gmap loc Node) :
  NewTensor g of_ dims shp nm (nodes σ) = Ret (t, h') →
  on_nodes (atomically (NewTensor g of_ dims shp nm)) σ = (Ret t, mkWorld h' (convs σ)).
Proof. intros Hnt. unfold on_nodes, atomically. rewrite Hnt. reflexivity. Qed.

Lemma NewTensor_panics (g : ptr) (of_ : Dtype) (dims : Z) (shp : Shape) (nm : string)
      (σ : World) (k : panic) :
  NewTensor g of_ dims shp nm (nodes σ) = Panic k →
  on_nodes (atomically (NewTensor g of_ dims shp nm)) σ = (Panic k, σ).
Proof.
  intros Hnt. unfold on_nodes, atomically. rewrite Hnt. rewrite World_eta. reflexivity.
Qed.

(** [Init] up to its call of [NewTensor]: on a layer with a size and a
    kernel shape of two entries or more, given a node, what is left is
    that call and the two writes. *)
Lemma Init_to_NewTensor (σ : World) (p a : loc) (c : Conv) (n : Node) (rest : list ptr)
      (s0 s1 k0 k1 : Z) (ss ks : list Z) :
  convs σ !! p = Some c →
  nodes σ !! a = Some n →
  size c = s0 :: s1 :: ss →
  kernelShape c = k0 :: k1 :: ks →
  Init (Some p) (Some a :: rest) σ =
  (t ← on_nodes (atomically (NewTensor (node_graph n) (node_dtype n) 4 [s0; s1; k0; k1]
                                       (name c +:+ "_w")));
   store (Some p) (with_w t);;
   store (Some p) (with_initialized true);;
   mret None) σ.
Proof.
  intros Hc Hn Hsize Hks. unfold Init.
  mstep (index_Some (S:=World)) by reflexivity.
  unfold Node_Graph, Node_Dtype.
  mstep (on_nodes_read _ _ _ _ Hn). mstep (on_nodes_read _ _ _ _ Hn).
  mstep (load_Some _ _ _ Hc).
  rewrite Hsize, Hks.
  do 4 (mstep (index_Some (S:=World)) by reflexivity).
  reflexivity.
Qed.

(** When [NewTensor] returns, [Init] stores the handle it returned and
    sets the flag. *)
Lemma Init_run (σ : World) (p a : loc) (c : Conv) (n : Node) (rest : list ptr)
      (s0 s1 k0 k1 : Z) (ss ks : list Z) (t : ptr) (h' : gmap loc Node) :
  convs σ !! p = Some c →
  nodes σ !! a = Some n →
  size c = s0 :: s1 :: ss →
  kernelShape c = k0 :: k1 :: ks →
  NewTensor (node_graph n) (node_dtype n) 4 [s0; s1; k0; k1] (name c +:+ "_w") (nodes σ)
    = Ret (t, h') →
  Init (Some p) (Some a :: rest) σ =
  (Ret None, mkWorld h' (<[p := with_initialized true (with_w t c)]> (convs σ))).
Proof.
  intros Hc Hn Hsize Hks Hnt.
  rewrite (Init_to_NewTensor _ _ _ _ _ _ _ _ _ _ _ _ Hc Hn Hsize Hks).
  mstep (NewTensor_returns _ _ _ _ _ _ _ _ Hnt).
  mstep store_Some by exact Hc.
  mstep store_Some by apply lookup_insert_eq.
  rewrite mret_run. simpl nodes. simpl convs. rewrite insert_insert_eq. reflexivity.
Qed.

(** When [NewTensor] faults, so does [Init], before it writes. *)
Lemma Init_NewTensor_panics (σ : World) (p a : loc) (c : Conv) (n : Node) (rest : list ptr)
      (s0 s1 k0 k1 : Z) (ss ks : list Z) (k : panic) :
  convs σ !! p = Some c →
  nodes σ !! a = Some n →
  size c = s0 :: s1 :: ss →
  kernelShape c = k0 :: k1 :: ks →
  NewTensor (node_graph n) (node_dtype n) 4 [s0; s1; k0; k1] (name c +:+ "_w") (nodes σ)
    = Panic k →
  Init (Some p) (Some a :: rest) σ = (Panic k, σ).
Proof.
  intros Hc Hn Hsize Hks Hnt.
  rewrite (Init_to_NewTensor _ _ _ _ _ _ _ _ _ _ _ _ Hc Hn Hsize Hks).
  mstep (NewTensor_panics _ _ _ _ _ _ _ Hnt). reflexivity.
Qed.

(** Every run of [Init] is of one of two kinds: a fault that leaves the
    store, or a completed call. *)
Lemma Init_cases (l : ptr) (xs : list ptr) (σ : World) :
  (∃ k, Init l xs σ = (Panic k, σ)) ∨
  (∃ σ', Init l xs σ = (Ret None, σ') ∧ Init_completes l xs σ σ').
Proof.
  destruct (index xs 0 σ).1 as [x|k0] eqn:Hx; cycle 1.
  { left. exists k0. unfold Init.
    rewrite bind_readonly by apply index_readonly. rewrite Hx. reflexivity. }
  apply index_outcome in Hx.
  destruct xs as [|x' rest]; [discriminate|]. injection Hx as ->.
  destruct x as [a|]; cycle 1.
  { left. exists NilDereference. unfold Init.
    mstep (index_Some (S:=World)) by reflexivity.
    unfold Node_Graph. rewrite bind_unfold, Node_read_run. reflexivity. }
  destruct (nodes σ !! a) as [n|] eqn:Hn; cycle 1.
  { left. exists NilDereference. unfold Init.
    mstep (index_Some (S:=World)) by reflexivity.
    unfold Node_Graph. rewrite bind_unfold, Node_read_run. simpl. rewrite Hn. reflexivity. }
  destruct (l ≫= (convs σ !!.)) as [c|] eqn:Hl; cycle 1.
  { left. exists NilDereference. unfold Init.
    mstep (index_Some (S:=World)) by reflexivity.
    unfold Node_Graph, Node_Dtype.
    mstep (on_nodes_read _ _ _ _ Hn). mstep (on_nodes_read _ _ _ _ Hn).
    rewrite bind_unfold. unfold load. rewrite Hl. reflexivity. }
  destruct l as [p|]; [|discriminate]. simpl in Hl.
  destruct (size c) as [|s0 [|s1 ss]] eqn:Hsize.
  1, 2: left; exists IndexOutOfRange; unfold Init;
        mstep (index_Some (S:=World)) by reflexivity;
        unfold Node_Graph, Node_Dtype;
        mstep (on_nodes_read _ _ _ _ Hn); mstep (on_nodes_read _ _ _ _ Hn);
        mstep (load_Some _ _ _ Hl); rewrite Hsize; reflexivity.
  destruct (kernelShape c) as [|k0 [|k1 ks]] eqn:Hks.
  1, 2: left; exists IndexOutOfRange; unfold Init;
        mstep (index_Some (S:=World)) by reflexivity;
        unfold Node_Graph, Node_Dtype;
        mstep (on_nodes_read _ _ _ _ Hn); mstep (on_nodes_read _ _ _ _ Hn);
        mstep (load_Some _ _ _ Hl); rewrite Hsize, Hks; reflexivity.
  destruct (NewTensor (node_graph n) (node_dtype n) 4 [s0; s1; k0; k1] (name c +:+ "_w")
                      (nodes σ)) as [[t h']|k] eqn:Hnt.
  - right. eexists. split.
    + exact (Init_run _ _ _ _ _ _ _ _ _ _ _ _ _ _ Hl Hn Hsize Hks Hnt).
    + exists p, a, c, n, rest, s0, s1, k0, k1, ss, ks, t, h'. repeat split; assumption.
  - left. exists k. exact (Init_NewTensor_panics _ _ _ _ _ _ _ _ _ _ _ _ _ Hl Hn Hsize Hks Hnt).
Qed.

Lemma Init_completes_run (l : ptr) (xs : list ptr) (σ σ' : World) :
  Init_completes l xs σ σ' → Init l xs σ = (Ret None, σ').
Proof.
  intros (p & a & c & n & rest & s0 & s1 & k0 & k1 & ss & ks & t & h' &
          -> & -> & Hc & Hn & Hsize & Hks & Hnt & ->).
  exact (Init_run _ _ _ _ _ _ _ _ _ _ _ _ _ _ Hc Hn Hsize Hks Hnt).
Qed.

Lemma Init_returns_completes (l : ptr) (xs : list ptr) (σ σ' : World) :
  Init l xs σ = (Ret None, σ') → Init_completes l xs σ σ'.
Proof.
  intros Hrun. destruct (Init_cases l xs σ) as [[k Hk] | (σ1 & H1 & Hcomp)].
  - rewrite Hk in Hrun. discriminate.
  - rewrite H1 in Hrun. injection Hrun as <-. exact Hcomp.
Qed.

Lemma Init_fault_store (l : ptr) (xs : list ptr) (σ σ' : World) (k : panic) :
  Init l xs σ = (Panic k, σ') → σ' = σ.
Proof.
  intros Hrun. destruct (Init_cases l xs σ) as [[k' Hk] | (σ1 & H1 & _)].
  - rewrite Hk in Hrun. injection Hrun as _ <-. reflexivity.
  - rewrite H1 in Hrun. discriminate.
Qed.

(** C9, as amended. [Init] never returns a non-nil error and reads
    only the first of its node arguments. It returns, with a nil
    error, exactly when the receiver is a layer whose size and kernel
    shape have two entries or more, the first argument is a node of the
    graph, and the engine's [NewTensor] returns; the layer's weight is
    then the handle [NewTensor] returned and its flag is set, whatever
    the flag was before the call. Otherwise it faults, and the store
    is as it was. *)
Theorem Init_creates_weight (l : ptr) (xs : list ptr) (σ : World) :
  (∀ e, (Init l xs σ).1 ≠ Ret (Some e)) ∧
  (∀ x rest, xs = x :: rest → Init l xs σ = Init l [x] σ) ∧
  (∀ σ', Init l xs σ = (Ret None, σ') ↔ Init_completes l xs σ σ') ∧
  ((∀ σ', ¬ Init_completes l xs σ σ') → ∃ k, Init l xs σ = (Panic k, σ)) ∧
  (∀ (p : loc) (c : Conv) (b : bool) σ',
     l = Some p → convs σ !! p = Some c →
     let σb := mkWorld (nodes σ) (<[p := with_initialized b c]> (convs σ)) in
     Init l xs σ = (Ret None, σ') → Init l xs σb = (Ret None, σ')).
Proof.
  split; [|split; [|split; [|split]]].
  - intros e. apply Init_never_errors.
  - intros x rest ->. apply Init_first_argument.
  - intros σ'. split; [apply Init_returns_completes | apply Init_completes_run].
  - intros Hno. destruct (Init_cases l xs σ) as [Hk | (σ' & _ & Hcomp)]; [exact Hk|].
    destruct (Hno σ' Hcomp).
  - intros p c b σ' -> Hc σb Hrun.
    apply Init_returns_completes in Hrun.
    destruct Hrun as (p' & a & c' & n & rest & s0 & s1 & k0 & k1 & ss & ks & t & h' &
                      [= <-] & -> & Hc' & Hn & Hsize & Hks & Hnt & ->).
    rewrite Hc in Hc'. injection Hc' as <-.
    unfold σb.
    erewrite Init_run;
      [ | apply lookup_insert_eq | exact Hn | exact Hsize | exact Hks | exact Hnt ].
    simpl convs. rewrite insert_insert_eq. reflexivity.
Qed.

Lemma Conv_Shape_run (σ : World) (p : loc) (c : Conv) :
  convs σ !! p = Some c →
  Conv_Shape (Some p) σ =
  (match w c ≫= (nodes σ !!.) with
   | Some wn => Ret (node_shape wn)
   | None => Panic NilDereference
   end, σ).
Proof.
  intros Hc. unfold Conv_Shape. mstep (load_Some _ _ _ Hc).
  unfold Node_Shape. apply Node_read_run.
Qed.

(** C10. [Shape] dereferences the weight handle whatever the layer's
    state: when the handle points to a node it returns that node's
    shape; on a nil handle it faults with a nil dereference, and the
    layer [NewConv] builds has a nil handle. Once [Init] has returned,
    [Shape] reads the node whose handle [NewTensor] returned, and, when
    that node is the tensor asked for, returns the shape made of the
    first two entries of the size and of the kernel shape. *)
Theorem Conv_Shape_dereferences_weight (σ : World) (p : loc) (c : Conv) :
  convs σ !! p = Some c →
  (∀ (q : loc) (wn : Node),
     w c = Some q → nodes σ !! q = Some wn →
     Conv_Shape (Some p) σ = (Ret (node_shape wn), σ)) ∧
  (w c = None → Conv_Shape (Some p) σ = (Panic NilDereference, σ)) ∧
  (∀ (a : loc) (n : Node) (s0 s1 k0 k1 : Z) (ss ks : list Z) (σ' : World),
     nodes σ !! a = Some n →
     size c = s0 :: s1 :: ss →
     kernelShape c = k0 :: k1 :: ks →
     Init (Some p) [Some a] σ = (Ret None, σ') →
     ∃ (t : ptr) (h' : gmap loc Node),
       NewTensor (node_graph n) (node_dtype n) 4 [s0; s1; k0; k1] (name c +:+ "_w") (nodes σ)
         = Ret (t, h') ∧
       Conv_Shape (Some p) σ' = on_nodes (Node_Shape t) σ' ∧
       (NewTensor_sound → Conv_Shape (Some p) σ' = (Ret [s0; s1; k0; k1], σ'))) ∧
  (let r := NewConv [] σ in
   ∃ l c0, r.1 = Ret (Some l, None) ∧ convs r.2 !! l = Some c0 ∧
           w c0 = None ∧ initialized c0 = false ∧
           Conv_Shape (Some l) r.2 = (Panic NilDereference, r.2)).
Proof.
  intros Hc. split; [|split; [|split]].
  - intros q wn Hw Hq. rewrite (Conv_Shape_run _ _ _ Hc), Hw. simpl. rewrite Hq. reflexivity.
  - intros Hw. rewrite (Conv_Shape_run _ _ _ Hc), Hw. reflexivity.
  - intros a n s0 s1 k0 k1 ss ks σ' Hn Hsize Hks Hrun.
    apply Init_returns_completes in Hrun.
    destruct Hrun as (p' & a' & c' & n' & rest & s0' & s1' & k0' & k1' & ss' & ks' & t & h' &
                      [= <-] & [= <- <-] & Hc' & Hn' & Hsize' & Hks' & Hnt & ->).
    rewrite Hc in Hc'. injection Hc' as <-.
    rewrite Hn in Hn'. injection Hn' as <-.
    rewrite Hsize in Hsize'. injection Hsize' as <- <- <-.
    rewrite Hks in Hks'. injection Hks' as <- <- <-.
    exists t, h'. split; [exact Hnt|].
    split.
    + unfold Conv_Shape. mstep load_Some by apply lookup_insert_eq. reflexivity.
    + intros Hsound. destruct (Hsound _ _ _ _ _ _ _ _ Hnt) as (q & -> & Hq).
      erewrite Conv_Shape_run by apply lookup_insert_eq.
      simpl. rewrite Hq. reflexivity.
  - exists (fresh (dom (convs σ))), defaultConv. simpl.
    split; [reflexivity|]. split; [apply lookup_insert_eq|].
    split; [reflexivity|]. split; [reflexivity|].
    erewrite Conv_Shape_run by apply lookup_insert_eq. reflexivity.
Qed.

(** ** Fwd *)

Lemma inv_mret {A} (I : World → Prop) (a : A) : inv_step I (mret a).
Proof. intros σ HI. exact HI. Qed.

Lemma inv_fault {A} (I : World → Prop) (k : panic) : inv_step I (fault k : M World A).
Proof. intros σ HI. exact HI. Qed.

Lemma inv_bind {A B} (I : World → Prop) (m : M World A) (f : A → M World B) :
  inv_step I m → (∀ a, inv_step I (f a)) → inv_step I (m ≫= f).
Proof.
  intros Hm Hf σ HI. rewrite bind_unfold. specialize (Hm σ HI).
  destruct (m σ) as [[a|k] σ']; [apply Hf|]; exact Hm.
Qed.

Lemma inv_bind_mret {A B} (I : World → Prop) (a : A) (f : A → M World B) :
  inv_step I (f a) → inv_step I (mret a ≫= f).
Proof. intros Hf σ HI. rewrite bind_mret. exact (Hf σ HI). Qed.

Lemma inv_bind_fault {A B} (I : World → Prop) (k : panic) (f : A → M World B) :
  inv_step I (fault k ≫= f).
Proof. intros σ HI. rewrite bind_fault. exact HI. Qed.

Lemma inv_stateless {A} (I : World → Prop) (m : M World A) : stateless m → inv_step I m.
Proof. intros Hm σ HI. rewrite stateless_state by exact Hm. exact HI. Qed.

Lemma inv_read {A} (I : World → Prop) (f : Node → A) (x : option positive) :
  inv_step I (on_nodes (Node_read f x)).
Proof. intros σ HI. rewrite on_nodes_read_state. exact HI. Qed.

Lemma inv_Input_Node (I : World → Prop) (x : Input) : inv_step I (Input_Node x).
Proof. destruct x; [apply inv_fault | apply inv_mret | apply inv_mret]. Qed.

(** The forward pass keeps every [layer_inv A N] whose [A] does not
    look at the cached estimate and whose [N] survives the graph
    operations the pass runs. *)
Section LayerInvariant.
Variables (A : Conv → Prop) (N : gmap positive Node → Prop).
Variables (p : positive) (t : option positive).

Hypothesis A_flops : ∀ c v, A c → A (with_flops v c).
Hypothesis N_Conv2d : ∀ x w_ ks pd st dl h, N h → N (Conv2d x w_ ks pd st dl h).2.
Hypothesis N_Dropout : ∀ x d h, N h → N (Dropout x d h).2.
Hypothesis N_act : ∀ c f x h, A c → act c = Some f → N h → N (f x h).2.

Let I := layer_inv A N p t.

(** Reading the layer in a store where the invariant holds. *)
Lemma inv_load {B} (f : Conv → M World B) :
  (∀ c, initialized c = true → w c = t → A c → inv_step I (f c)) →
  inv_step I (load (Some p) ≫= f).
Proof.
  intros Hf σ HI. pose proof HI as (c & Hc & Hinit & Hw & HA & _).
  rewrite (bind_Ret _ _ _ _ _ (load_Some _ _ _ Hc)).
  exact (Hf c Hinit Hw HA σ HI).
Qed.

Lemma inv_on_nodes {B} (m : M (gmap positive Node) B) :
  (∀ h, N h → N (m h).2) → inv_step I (on_nodes m).
Proof.
  intros Hm σ (c & Hc & Hinit & Hw & HA & HN).
  exists c. rewrite on_nodes_convs, on_nodes_nodes.
  repeat split; try assumption. apply Hm, HN.
Qed.

Lemma inv_store_flops (v : Z) : inv_step I (store (Some p) (with_flops v)).
Proof.
  intros σ (c & Hc & Hinit & Hw & HA & HN).
  rewrite (store_Some _ _ _ _ Hc). exists (with_flops v c). simpl.
  rewrite lookup_insert_eq. repeat split; try assumption. apply A_flops, HA.
Qed.

Lemma inv_doComputeFLOPs (input : list Z) : inv_step I (doComputeFLOPs (Some p) input).
Proof.
  unfold doComputeFLOPs. apply inv_load. intros c _ _ _.
  apply inv_bind; [apply inv_read | intros shp].
  apply inv_stateless. stateless_tac.
Qed.

Lemma Fwd_keeps_layer_inv (x : Input) : inv_step I (Fwd (Some p) x).
Proof.
  unfold Fwd.
  destruct (CheckOne x); [apply inv_mret|].
  apply inv_bind; [apply inv_Input_Node | intros xN].
  apply inv_load. intros c Hinit _ _. rewrite Hinit.
  apply inv_bind_mret.
  apply inv_load. intros c0 _ _ HA.
  apply inv_bind; [apply inv_on_nodes, N_Conv2d | intros [cv [err|]]].
  - apply inv_bind; [apply inv_Input_Node | intros xN'].
    apply inv_bind; [apply inv_read | intros xshp].
    apply inv_bind; [apply inv_read | intros wshp].
    apply inv_mret.
  - destruct (act c0) as [g|] eqn:Hg; simpl callable; [|apply inv_bind_fault].
    apply inv_bind_mret.
    apply inv_bind;
      [apply inv_on_nodes; intros h Hh; exact (N_act c0 g cv h HA Hg Hh)
      | intros [result [err|]]]; [apply inv_mret|].
    apply inv_bind.
    { destruct (dropout c0); [apply inv_on_nodes, N_Dropout | apply inv_mret]. }
    intros [result0 [err|]]; [apply inv_mret|].
    apply inv_bind.
    { destruct (computeFLOPs c0); [|apply inv_mret].
      apply inv_bind; [apply inv_read | intros xshp].
      apply inv_bind; [apply inv_doComputeFLOPs | intros v; apply inv_store_flops]. }
    intros _. apply inv_bind; [apply inv_read | intros _; apply inv_mret].
Qed.

End LayerInvariant.

(** A forward pass on an initialised layer leaves the flag set and the
    weight handle as it was. *)
Lemma Fwd_keeps_handle (p : positive) (t : option positive) (x : Input) :
  inv_step (initialized_with p t) (Fwd (Some p) x).
Proof. apply Fwd_keeps_layer_inv; intros; exact Logic.I. Qed.

(** When the graph operations only add nodes, it leaves the weight
    node as it was, too. *)
Lemma Fwd_keeps_weight (p t : positive) (tn : Node) (x : Input) :
  Engine_extends → inv_step (weight_bound p t tn) (Fwd (Some p) x).
Proof.
  intros (_ & HConv2d & HDropout). apply Fwd_keeps_layer_inv.
  - intros c v Hact. exact Hact.
  - intros x' w_ ks pd st dl h Ht.
    exact (lookup_weaken _ _ _ _ Ht (HConv2d x' w_ ks pd st dl h)).
  - intros x' d h Ht. exact (lookup_weaken _ _ _ _ Ht (HDropout x' d h)).
  - intros c f x' h Hact Hf Ht. exact (lookup_weaken _ _ _ _ Ht (Hact f Hf x' h)).
Qed.

(** The first forward pass on a layer that is not initialised, when
    [Init] returns, is the forward pass of the layer [Init] leaves. *)
Lemma Fwd_first_call (σ σi : World) (p a : positive) (c : Conv) :
  convs σ !! p = Some c →
  initialized c = false →
  Init (Some p) [Some a] σ = (Ret None, σi) →
  Fwd (Some p) (InputNode (Some a)) σ = Fwd (Some p) (InputNode (Some a)) σi.
Proof.
  intros Hc Hinit HInit.
  pose proof (Init_returns_completes _ _ _ _ HInit)
    as (p' & a' & c' & n & rest & s0 & s1 & k0 & k1 & ss & ks & t & h' &
        [= <-] & _ & Hc' & _ & _ & _ & _ & ->).
  rewrite Hc in Hc'. injection Hc' as <-.
  match goal with |- _ = ?R => remember R as rhs eqn:Hrhs end.
  unfold Fwd, CheckOne, Input_Node. rewrite bind_mret.
  mstep (load_Some _ _ _ Hc). rewrite Hinit.
  mstep HInit.
  subst rhs.
  match goal with |- ?L = _ => remember L as lhs eqn:Hlhs end.
  unfold Fwd, CheckOne, Input_Node. rewrite bind_mret.
  mstep load_Some by apply lookup_insert_eq.
  simpl (initialized _). cbv iota. rewrite bind_mret.
  subst lhs. reflexivity.
Qed.

(** C5, as amended. On a layer that is not initialised, when the
    [Init] that the first [Fwd] runs on its input node returns, that
    [Fwd] is the forward pass of the layer [Init] leaves: the weight is
    the handle [t] that [NewTensor] returned when asked for a tensor of
    the input's graph and dtype, and the flag is set. Every [Fwd] on a
    layer in that state, whatever its input and outcome, leaves the
    flag set and the handle [t] in place. When [NewTensor] returns the
    tensor it was asked for and the graph operations only add nodes,
    [t] points to a node of the input's graph and dtype after [Init]
    and still points to that same node after each of these calls. *)
Theorem Fwd_initializes_once (σ σi : World) (p a : positive) (c : Conv) :
  convs σ !! p = Some c →
  initialized c = false →
  Init (Some p) [Some a] σ = (Ret None, σi) →
  let first := Fwd (Some p) (InputNode (Some a)) σ in
  ∃ (n : Node) (s0 s1 k0 k1 : Z) (t : option positive) (h' : gmap positive Node),
    nodes σ !! a = Some n ∧
    take 2 (size c) = [s0; s1] ∧ take 2 (kernelShape c) = [k0; k1] ∧
    NewTensor (node_graph n) (node_dtype n) 4 [s0; s1; k0; k1] (name c +:+ "_w") (nodes σ)
      = Ret (t, h') ∧
    initialized_with p t σi ∧
    first = Fwd (Some p) (InputNode (Some a)) σi ∧
    initialized_with p t first.2 ∧
    (∀ (σ' : World) (x : Input),
       initialized_with p t σ' → initialized_with p t (Fwd (Some p) x σ').2) ∧
    (NewTensor_sound → Engine_extends → act_extends c →
     let tn := mkNode (node_graph n) (node_dtype n) [s0; s1; k0; k1] (name c +:+ "_w") in
     ∃ q : positive,
       t = Some q ∧
       weight_bound p q tn σi ∧
       weight_bound p q tn first.2 ∧
       ∀ (σ' : World) (x : Input),
         weight_bound p q tn σ' → weight_bound p q tn (Fwd (Some p) x σ').2).
Proof.
  intros Hc Hinit HInit first.
  pose proof (Fwd_first_call _ _ _ _ _ Hc Hinit HInit) as Hfirst. fold first in Hfirst.
  pose proof (Init_returns_completes _ _ _ _ HInit)
    as (p' & a' & c' & n & rest & s0 & s1 & k0 & k1 & ss & ks & t & h' &
        [= <-] & [= <- _] & Hc' & Hn & Hsize & Hks & Hnt & Hσi).
  rewrite Hc in Hc'. injection Hc' as <-.
  assert (Hi : initialized_with p t σi).
  { rewrite Hσi. exists (with_initialized true (with_w t c)). simpl.
    rewrite lookup_insert_eq. repeat split. }
  exists n, s0, s1, k0, k1, t, h'.
  split; [exact Hn|].
  split; [rewrite Hsize; reflexivity|].
  split; [rewrite Hks; reflexivity|].
  split; [exact Hnt|].
  split; [exact Hi|].
  split; [exact Hfirst|].
  split; [rewrite Hfirst; apply Fwd_keeps_handle, Hi|].
  split; [intros σ' x; apply Fwd_keeps_handle|].
  intros Hsound HE Hact tn.
  destruct (Hsound _ _ _ _ _ _ _ _ Hnt) as (q & -> & Hq).
  assert (Hb : weight_bound p q tn σi).
  { rewrite Hσi. exists (with_initialized true (with_w (Some q) c)). simpl.
    rewrite lookup_insert_eq. repeat split; [exact Hact | exact Hq]. }
  exists q. split; [reflexivity|].
  split; [exact Hb|].
  split; [rewrite Hfirst; apply Fwd_keeps_weight; [exact HE | exact Hb]|].
  intros σ' x. apply Fwd_keeps_weight, HE.
Qed.

End ConvProperties.

(** * Further properties of the code *)

Section FurtherProperties.
Context `{!Engine}.

(** ** Redefine and the loop of NewConv *)

(** X1. [Redefine] returns a nil error exactly when every option
    returned one, and then the layer it returns is the layer it was
    called with, whatever layers the options returned; the store is the
    one the options left. *)
Theorem Redefine_nil_error_iff (l l' : Layer) (opts : list ConsOpt) (σ σ' : World) :
  Redefine l opts σ = (Ret (l', None), σ') ↔ l' = l ∧ applied l opts σ σ'.
Proof.
  split.
  - revert σ. induction opts as [|opt opts IH]; intros σ.
    + simpl. rewrite mret_run. intros [= <- <-]. split; [reflexivity | constructor].
    + simpl Redefine. rewrite bind_unfold.
      destruct (opt l σ) as [[[lo [e|]]|k] σ1] eqn:Hopt; [discriminate | | discriminate].
      intros Hrest. destruct (IH _ Hrest) as [-> Happ].
      split; [reflexivity | econstructor; eassumption].
  - intros [-> Happ]. apply Redefine_applied, Happ.
Qed.

(** X2. [Redefine] over two lists of options in a row is [Redefine]
    over the first and, when that returned a nil error, [Redefine] over
    the second in the store the first left; an error or a fault of
    the first is the result. *)
Theorem Redefine_app (l : Layer) (opts1 opts2 : list ConsOpt) (σ : World) :
  Redefine l (opts1 ++ opts2) σ =
  match Redefine l opts1 σ with
  | (Ret (_, None), σ1) => Redefine l opts2 σ1
  | r => r
  end.
Proof.
  revert σ. induction opts1 as [|opt opts1 IH]; intros σ; [reflexivity|].
  simpl app. simpl Redefine. rewrite !bind_unfold.
  destruct (opt l σ) as [[[l' [e|]]|k] σ1]; [reflexivity | apply IH | reflexivity].
Qed.

(** X3. The loop of [NewConv] over two lists of options in a row is
    the loop over the first and, when that returned a nil error, the
    loop over the second started on the pointer the first returned. *)
Theorem NewConv_opts_app (l : option positive) (opts1 opts2 : list ConsOpt) (σ : World) :
  NewConv_opts l (opts1 ++ opts2) σ =
  match NewConv_opts l opts1 σ with
  | (Ret (l1, None), σ1) => NewConv_opts l1 opts2 σ1
  | r => r
  end.
Proof.
  revert l σ. induction opts1 as [|opt opts1 IH]; intros l σ; [reflexivity|].
  simpl app. simpl NewConv_opts. rewrite !bind_unfold.
  destruct (opt (LayerConv l) σ) as [[[o [e|]]|k] σ1]; [reflexivity | | reflexivity].
  destruct o; [reflexivity | apply IH | reflexivity].
Qed.

(** X4. [NewConv] never returns a layer together with an error: when
    the error is not nil the pointer is nil. *)
Theorem NewConv_error_nil (opts : list ConsOpt) (σ σ' : World) (l : option positive)
        (e : error) :
  NewConv opts σ = (Ret (l, Some e), σ') → l = None.
Proof.
  unfold NewConv. rewrite bind_unfold.
  destruct (alloc defaultConv σ) as [[l0|k] σ0]; [|discriminate].
  revert l0 σ0. induction opts as [|opt opts IH]; intros l0 σ0.
  - simpl. rewrite mret_run. discriminate.
  - simpl NewConv_opts. rewrite bind_unfold.
    destruct (opt (LayerConv l0) σ0) as [[[o [e'|]]|k] σ1].
    + rewrite mret_run. intros [= <- _ _]. reflexivity.
    + destruct o; [| apply IH |]; rewrite mret_run; intros [= <- _ _]; reflexivity.
    + discriminate.
Qed.

(** X5. When the options before [opt] ran through, [NewConv] stops at
    [opt] if it fails: an error of [opt] is returned with a nil
    pointer; a layer that is not a [*Conv], returned with a nil error,
    gives a nil pointer and an error that carries the type of that
    layer. The options after [opt] are not called. *)
Theorem NewConv_first_failure (pre post : list ConsOpt) (opt : ConsOpt)
        (l l1 : option positive) (σ σ0 σ1 : World) :
  alloc defaultConv σ = (Ret l, σ0) →
  threaded l pre σ0 l1 σ1 →
  (∀ o e σ2, opt (LayerConv l1) σ1 = (Ret (o, Some e), σ2) →
             NewConv (pre ++ opt :: post) σ = (Ret (None, Some e), σ2)) ∧
  (∀ o σ2, opt (LayerConv l1) σ1 = (Ret (o, None), σ2) →
           (∀ q, o ≠ LayerConv q) →
           NewConv (pre ++ opt :: post) σ =
           (Ret (None, Some (Errorf "Construction Option returned a non Conv. Got %T instead"
                                    [typeOfLayer o])), σ2)).
Proof.
  intros Halloc Hpre. unfold NewConv. rewrite bind_unfold, Halloc. cbv beta iota.
  clear Halloc.
  induction Hpre as [l σ0 | l la lb op ops σ0 σa σb Hop _ IH].
  - split.
    + intros o e σ2 Hopt. simpl app. simpl NewConv_opts. mstep Hopt. reflexivity.
    + intros o σ2 Hopt Ho. simpl app. simpl NewConv_opts. mstep Hopt.
      destruct o as [|q|]; [reflexivity | destruct (Ho q eq_refl) | reflexivity].
  - destruct IH as [IHe IHo]. split.
    + intros o e σ2 Hopt. simpl app. simpl NewConv_opts. mstep Hop.
      exact (IHe o e σ2 Hopt).
    + intros o σ2 Hopt Ho. simpl app. simpl NewConv_opts. mstep Hop.
      exact (IHo o σ2 Hopt Ho).
Qed.

(** X6. [NewConv] returns a nil error exactly when every option
    returned a [*Conv] and a nil error, each given the pointer the one
    before it returned; the layer [NewConv] returns is then the one the
    last option returned (the new struct itself when there is no
    option). *)
Theorem NewConv_nil_error_iff (opts : list ConsOpt) (l' : option positive) (σ σ' : World) :
  NewConv opts σ = (Ret (l', None), σ') ↔
  threaded (Some (fresh (dom (convs σ)))) opts
           (mkWorld (nodes σ) (<[fresh (dom (convs σ)) := defaultConv]> (convs σ))) l' σ'.
Proof.
  unfold NewConv. rewrite bind_unfold.
  change (alloc defaultConv σ)
    with (Ret (Some (fresh (dom (convs σ)))),
          mkWorld (nodes σ) (<[fresh (dom (convs σ)) := defaultConv]> (convs σ))).
  cbv beta iota.
  generalize (Some (fresh (dom (convs σ)))).
  generalize (mkWorld (nodes σ) (<[fresh (dom (convs σ)) := defaultConv]> (convs σ))).
  clear σ. intros σ l. split.
  - revert l σ. induction opts as [|opt opts IH]; intros l σ.
    + simpl. rewrite mret_run. intros [= <- <-]. constructor.
    + simpl NewConv_opts. rewrite bind_unfold.
      destruct (opt (LayerConv l) σ) as [[[o [e|]]|k] σ1] eqn:Hopt;
        [rewrite mret_run; discriminate | | discriminate].
      destruct o as [|q|]; [rewrite mret_run; discriminate | | rewrite mret_run; discriminate].
      intros Hrest. econstructor; [exact Hopt | exact (IH _ _ Hrest)].
  - induction 1 as [l σ | l la lb op ops σ σa σb Hop _ IH].
    + reflexivity.
    + simpl NewConv_opts. mstep Hop. exact IH.
Qed.

(** ** Init *)

Lemma Init_nil_node (l : option positive) (rest : list (option positive)) (σ : World) :
  Init l (None :: rest) σ = (Panic NilDereference, σ).
Proof.
  unfold Init. mstep (index_Some (S:=World)) by reflexivity.
  unfold Node_Graph. rewrite bind_unfold, Node_read_run. reflexivity.
Qed.

Lemma Init_short_size (σ : World) (p a : positive) (c : Conv) (n : Node)
      (rest : list (option positive)) :
  nodes σ !! a = Some n →
  convs σ !! p = Some c →
  (length (size c) < 2)%nat →
  Init (Some p) (Some a :: rest) σ = (Panic IndexOutOfRange, σ).
Proof.
  intros Hn Hc Hsize. unfold Init.
  mstep (index_Some (S:=World)) by reflexivity.
  unfold Node_Graph, Node_Dtype.
  mstep (on_nodes_read _ _ _ _ Hn). mstep (on_nodes_read _ _ _ _ Hn).
  mstep (load_Some _ _ _ Hc).
  destruct (size c) as [|s0 [|s1 ss]]; [reflexivity | reflexivity | simpl in Hsize; lia].
Qed.

(** X7. [Init] writes nothing unless it completes: a fault leaves the
    store as it was. It faults with an index out of range when it is
    given no node or when the layer's size has fewer than two entries,
    and with a nil dereference when the first node or the receiver is
    nil. *)
Theorem Init_faults_before_writing (l : option positive) (xs : list (option positive))
        (σ : World) :
  (∀ k σ', Init l xs σ = (Panic k, σ') → σ' = σ) ∧
  (xs = [] → Init l xs σ = (Panic IndexOutOfRange, σ)) ∧
  (∀ rest, xs = None :: rest → Init l xs σ = (Panic NilDereference, σ)) ∧
  (∀ a n rest, xs = Some a :: rest → nodes σ !! a = Some n →
               l ≫= (convs σ !!.) = None →
               Init l xs σ = (Panic NilDereference, σ)) ∧
  (∀ a n p c rest, xs = Some a :: rest → nodes σ !! a = Some n →
                   l = Some p → convs σ !! p = Some c →
                   (length (size c) < 2)%nat →
                   Init l xs σ = (Panic IndexOutOfRange, σ)).
Proof.
  split; [|split; [|split; [|split]]].
  - intros k σ'. apply Init_fault_store.
  - intros ->. reflexivity.
  - intros rest ->. apply Init_nil_node.
  - intros a n rest -> Hn Hl. unfold Init.
    mstep (index_Some (S:=World)) by reflexivity.
    unfold Node_Graph, Node_Dtype.
    mstep (on_nodes_read _ _ _ _ Hn). mstep (on_nodes_read _ _ _ _ Hn).
    rewrite bind_unfold. unfold load. rewrite Hl. reflexivity.
  - intros a n p c rest -> Hn -> Hc Hsize. exact (Init_short_size _ _ _ _ _ _ Hn Hc Hsize).
Qed.

(** ** The FLOPs estimate *)

Lemma index_ext {S A} (s s' : list A) (i : nat) :
  s !! i = s' !! i → @index S A s i = index s' i.
Proof. intros Hs. unfold index. rewrite Hs. reflexivity. Qed.

(** X9. Of the input shape the estimate reads the entries 1 and 2 and
    nothing else: two input shapes that agree on these two entries (or
    on their absence) give the same outcome, whatever their entry 0
    (the batch size), their entries from 3 on (for a four-dimensional
    input, the width) and their lengths. *)
Theorem doComputeFLOPs_reads_two_entries (l : option positive) (input input' : list Z)
        (σ : World) :
  input !! 1%nat = input' !! 1%nat →
  input !! 2%nat = input' !! 2%nat →
  doComputeFLOPs l input σ = doComputeFLOPs l input' σ.
Proof.
  intros H1 H2. unfold doComputeFLOPs, instancesPerFilter.
  rewrite (index_ext (S:=World) input input' 1 H1), (index_ext (S:=World) input input' 2 H2).
  reflexivity.
Qed.

Lemma instancesPerFilter_short_input {S} (shp input pad_ stride_ : list Z) (s : S) :
  (length input < 3)%nat →
  ∃ k, instancesPerFilter shp input pad_ stride_ s = (Panic k, s).
Proof.
  intros Hlen. unfold instancesPerFilter.
  destruct input as [|b [|i1 [|i2 rest]]]; [| | |simpl in Hlen; lia].
  - eexists. reflexivity.
  - eexists. reflexivity.
  - mstep (index_Some (S:=S)) by reflexivity.
    rewrite bind_readonly by apply index_readonly.
    destruct (index shp 2 s).1; [|eexists; reflexivity].
    rewrite bind_readonly by apply index_readonly.
    destruct (index pad_ 0 s).1; [|eexists; reflexivity].
    rewrite bind_readonly by apply index_readonly.
    destruct (index stride_ 0 s).1 as [st|]; [|eexists; reflexivity].
    unfold int_div. destruct (decide (st = 0)); [eexists; reflexivity|].
    rewrite bind_mret. eexists. reflexivity.
Qed.

(** X10. [doComputeFLOPs] checks none of what it reads. On a layer
    whose weight handle is nil it faults with a nil dereference. With a
    four-entry weight shape, an input shape of fewer than three entries
    makes it fault; a first stride of zero gives an integer division by
    zero, and so does a second stride of zero after a first that is
    not. *)
Theorem doComputeFLOPs_faults (σ : World) (p : positive) (c : Conv) (input : list Z) :
  convs σ !! p = Some c →
  (w c = None → doComputeFLOPs (Some p) input σ = (Panic NilDereference, σ)) ∧
  (∀ q wn F C Kh Kw,
     w c = Some q → nodes σ !! q = Some wn → node_shape wn = [F; C; Kh; Kw] →
     ((length input < 3)%nat → ∃ k, doComputeFLOPs (Some p) input σ = (Panic k, σ)) ∧
     (∀ b i1 rest ph prest srest,
        input = b :: i1 :: rest → pad c = ph :: prest → stride c = 0 :: srest →
        doComputeFLOPs (Some p) input σ = (Panic DivideByZero, σ)) ∧
     (∀ b i1 i2 rest ph pw prest sh srest,
        input = b :: i1 :: i2 :: rest → pad c = ph :: pw :: prest →
        stride c = sh :: 0 :: srest → sh ≠ 0 →
        doComputeFLOPs (Some p) input σ = (Panic DivideByZero, σ))).
Proof.
  intros Hc. split.
  - intros Hw. rewrite (doComputeFLOPs_unfold _ _ _ _ Hc), Hw. reflexivity.
  - intros q wn F C Kh Kw Hw Hq Hshp.
    rewrite (doComputeFLOPs_unfold _ _ _ _ Hc), Hw. simpl (Some q ≫= _).
    rewrite Hq, Hshp. cbv zeta.
    do 3 (mstep (index_Some (S:=World)) by reflexivity).
    split; [|split].
    + intros Hlen.
      destruct (instancesPerFilter_short_input [F; C; Kh; Kw] input (pad c) (stride c) σ Hlen)
        as [k Hk].
      exists k. rewrite bind_unfold, Hk. reflexivity.
    + intros b i1 rest ph prest srest -> -> ->.
      rewrite bind_unfold. unfold instancesPerFilter.
      do 4 (mstep (index_Some (S:=World)) by reflexivity).
      reflexivity.
    + intros b i1 i2 rest ph pw prest sh srest -> -> -> Hsh.
      rewrite bind_unfold. unfold instancesPerFilter.
      do 4 (mstep (index_Some (S:=World)) by reflexivity).
      mstep (int_div_nonzero (S:=World)) by exact Hsh.
      do 4 (mstep (index_Some (S:=World)) by reflexivity).
      reflexivity.
Qed.

(** ** Fwd *)

(** X11. [Fwd] checks its input for a carried error only. An input
    that carries an error gives a failed result wrapping it, whatever
    the receiver, and writes nothing. A nil interface faults. A nil
    [*Node] passes the check: on a layer not yet initialised [Fwd] then
    faults in [Init] with a nil dereference, and the layer stays as it
    was. *)
Theorem Fwd_bad_input (σ : World) :
  (∀ l e, Fwd l (InputErr e) σ = (Ret (wrapErr l "checking input: %w" [ArgError e]), σ)) ∧
  (∀ l, Fwd l InputNil σ = (Panic NilDereference, σ)) ∧
  (∀ p c, convs σ !! p = Some c → initialized c = false →
          Fwd (Some p) (InputNode None) σ = (Panic NilDereference, σ)).
Proof.
  split; [|split].
  - reflexivity.
  - reflexivity.
  - intros p c Hc Hinit. unfold Fwd, CheckOne, Input_Node. rewrite bind_mret.
    mstep (load_Some _ _ _ Hc). rewrite Hinit.
    rewrite bind_unfold.
    rewrite Init_nil_node. reflexivity.
Qed.

Lemma on_nodes_run_convs {A} (m : M (gmap positive Node) A) (σ σ' : World) (r : outcome A) :
  on_nodes m σ = (r, σ') → convs σ' = convs σ.
Proof. intros Hm. rewrite <- (on_nodes_convs m σ), Hm. reflexivity. Qed.

(** X12. On an initialised layer, when [Conv2d] returns an error, [Fwd]
    stops there: the activation function, [Dropout] and the estimate
    are not run and the layer is as it was. For an input node it
    returns a failed result that wraps the error with the shapes of the
    input and of the weight; for a nil input node it faults with a nil
    dereference while reading the input's shape for the message. *)
Theorem Fwd_conv2d_error (σ σ1 : World) (p : positive) (c : Conv)
        (xN cv : option positive) (e : error) :
  convs σ !! p = Some c →
  initialized c = true →
  on_nodes (Conv2d xN (w c) (kernelShape c) (pad c) (stride c) (dilation c)) σ
  = (Ret (cv, Some e), σ1) →
  convs σ1 = convs σ ∧
  (∀ a n t tn,
     xN = Some a → nodes σ1 !! a = Some n → w c = Some t → nodes σ1 !! t = Some tn →
     Fwd (Some p) (InputNode xN) σ =
     (Ret (wrapErr (Some p) "applying conv2d %v %v: %w"
                   [ArgShape (node_shape n); ArgShape (node_shape tn); ArgError e]), σ1)) ∧
  (xN = None → Fwd (Some p) (InputNode xN) σ = (Panic NilDereference, σ1)).
Proof.
  intros Hc Hinit Hconv.
  split; [exact (on_nodes_run_convs _ _ _ _ Hconv)|].
  assert (Hrun : Fwd (Some p) (InputNode xN) σ
             = (xN' ← Input_Node (InputNode xN);
                xshp ← on_nodes (Node_Shape xN');
                wshp ← on_nodes (Node_Shape (w c));
                mret (wrapErr (Some p) "applying conv2d %v %v: %w"
                              [ArgShape xshp; ArgShape wshp; ArgError e])) σ1).
  { unfold Fwd at 1. unfold CheckOne. simpl (Input_Node (InputNode xN)).
    rewrite bind_mret.
    mstep (load_Some _ _ _ Hc). rewrite Hinit. rewrite bind_mret.
    mstep (load_Some _ _ _ Hc). mstep Hconv. reflexivity. }
  rewrite Hrun. clear Hrun.
  simpl (Input_Node _). rewrite bind_mret. unfold Node_Shape.
  split.
  - intros a n t tn -> Hn Hw Ht. rewrite Hw.
    mstep (on_nodes_read _ _ _ _ Hn). mstep (on_nodes_read _ _ _ _ Ht). reflexivity.
  - intros ->. rewrite bind_unfold, Node_read_run. reflexivity.
Qed.

Lemma readonly_bind {S A B} (m : M S A) (f : A → M S B) :
  (∀ s, (m s).2 = s) → (∀ a s, (f a s).2 = s) → ∀ s, ((m ≫= f) s).2 = s.
Proof.
  intros Hm Hf s. rewrite bind_readonly by apply Hm.
  destruct (m s).1; [apply Hf | reflexivity].
Qed.

Ltac stateless_steps :=
  repeat first
    [ apply stateless_mret | apply stateless_fault | apply stateless_index
    | apply stateless_int_div
    | apply stateless_bind; [|intros ?]
    | match goal with |- stateless (match ?x with _ => _ end) => destruct x end ].

(** The estimate writes nothing, whatever the receiver. *)
Lemma doComputeFLOPs_readonly (l : option positive) (input : list Z) (σ : World) :
  (doComputeFLOPs l input σ).2 = σ.
Proof.
  revert σ. unfold doComputeFLOPs.
  apply readonly_bind; [apply load_readonly | intros c].
  apply readonly_bind; [apply on_nodes_read_state | intros shp σ].
  apply stateless_state. stateless_steps.
Qed.

(** X13. On an initialised layer, when [Conv2d], the activation
    function and, if a dropout probability is set, [Dropout] return
    without error, [Fwd] returns the node the last of them produced:
    the weight is not created again. If [computeFLOPs] is set the
    estimate for the input node's shape is stored, and [FLOPs] returns
    it afterwards; if not, [FLOPs] returns what it returned before. *)
Theorem Fwd_result (σ σ1 σ2 σ3 : World) (p a rl : positive) (c : Conv)
        (f : ActivationFunction) (cv r : option positive) (n rn : Node) (v : Z) :
  convs σ !! p = Some c →
  initialized c = true →
  on_nodes (Conv2d (Some a) (w c) (kernelShape c) (pad c) (stride c) (dilation c)) σ
  = (Ret (cv, None), σ1) →
  act c = Some f →
  on_nodes (f cv) σ1 = (Ret (r, None), σ2) →
  (match dropout c with
   | Some d => on_nodes (Dropout r d)
   | None => mret (r, None)
   end : M World _) σ2 = (Ret (Some rl, None), σ3) →
  nodes σ3 !! rl = Some rn →
  nodes σ3 !! a = Some n →
  (computeFLOPs c = true → (doComputeFLOPs (Some p) (node_shape n) σ3).1 = Ret v) →
  let σ4 := if computeFLOPs c
            then mkWorld (nodes σ3) (<[p := with_flops v c]> (convs σ))
            else σ3 in
  Fwd (Some p) (InputNode (Some a)) σ = (Ret (InputNode (Some rl)), σ4) ∧
  FLOPs (Some p) σ4 = (Ret (if computeFLOPs c then v else flops c), σ4).
Proof.
  intros Hc Hinit Hconv Hact Hf Hdrop Hrl Ha Hv σ4.
  assert (Hc3 : convs σ3 = convs σ).
  { transitivity (convs σ2).
    - destruct (dropout c); [exact (on_nodes_run_convs _ _ _ _ Hdrop)|].
      rewrite mret_run in Hdrop. congruence.
    - rewrite (on_nodes_run_convs _ _ _ _ Hf). exact (on_nodes_run_convs _ _ _ _ Hconv). }
  assert (Hc3p : convs σ3 !! p = Some c) by (rewrite Hc3; exact Hc).
  split.
  - unfold Fwd, CheckOne, Input_Node. rewrite bind_mret.
    mstep (load_Some _ _ _ Hc). rewrite Hinit. rewrite bind_mret.
    mstep (load_Some _ _ _ Hc). mstep Hconv.
    rewrite Hact. simpl (callable _). rewrite bind_mret.
    mstep Hf. mstep Hdrop. unfold Node_Shape. subst σ4.
    destruct (computeFLOPs c) eqn:Hflag.
    + rewrite bind_unfold.
      mstep (on_nodes_read _ _ _ _ Ha).
      rewrite bind_readonly by apply doComputeFLOPs_readonly.
      rewrite (Hv eq_refl).
      rewrite (store_Some _ _ _ _ Hc3p). cbv beta iota. rewrite Hc3.
      mstep on_nodes_read by exact Hrl. reflexivity.
    + rewrite bind_mret. mstep (on_nodes_read _ _ _ _ Hrl). reflexivity.
  - unfold FLOPs. subst σ4. destruct (computeFLOPs c).
    + mstep load_Some by apply lookup_insert_eq. reflexivity.
    + mstep (load_Some _ _ _ Hc3p). reflexivity.
Qed.

(** The forward pass against the layer's configuration. *)
Section ConfigKept.
Variables (σ0 : World) (p : positive) (c0 : Conv).

Let J := config_kept σ0 p c0.

Lemma same_config_with (c c' : Conv) :
  same_config c0 c → same_config c c' → same_config c0 c'.
Proof.
  unfold same_config. intros (?&?&?&?&?&?&?&?&?) (?&?&?&?&?&?&?&?&?).
  repeat split; congruence.
Qed.

Lemma invJ_convs (σ σ' : World) : convs σ' = convs σ → J σ → J σ'.
Proof. unfold J, config_kept. intros ->. tauto. Qed.

Lemma invJ_on_nodes {A} (m : M (gmap positive Node) A) : inv_step J (on_nodes m).
Proof. intros σ HJ. exact (invJ_convs _ _ (on_nodes_convs m σ) HJ). Qed.

Lemma invJ_readonly {A} (m : M World A) : (∀ s, (m s).2 = s) → inv_step J m.
Proof. intros Hm σ HJ. rewrite Hm. exact HJ. Qed.

Lemma invJ_load {B} (f : Conv → M World B) :
  (∀ c, same_config c0 c → inv_step J (f c)) → inv_step J (load (Some p) ≫= f).
Proof.
  intros Hf σ HJ. pose proof HJ as [(c & Hc & Hsame & _) _].
  rewrite (bind_Ret _ _ _ _ _ (load_Some _ _ _ Hc)).
  exact (Hf c Hsame σ HJ).
Qed.

Lemma invJ_store (f : Conv → Conv) :
  (∀ c, same_config c (f c) ∧ flops (f c) = flops c) →
  inv_step J (store (Some p) f).
Proof.
  intros Hf σ [(c & Hc & Hsame & Hflops) Hothers].
  rewrite (store_Some _ _ _ _ Hc). unfold J, config_kept. simpl. split.
  - exists (f c). rewrite lookup_insert_eq. destruct (Hf c) as [Hcfg Hfl].
    split; [reflexivity|]. split; [exact (same_config_with _ _ Hsame Hcfg)|].
    intros Hflag. rewrite Hfl. apply Hflops, Hflag.
  - intros q Hq. simpl. rewrite lookup_insert_ne by congruence. apply Hothers, Hq.
Qed.

Lemma invJ_store_flops (v : Z) :
  computeFLOPs c0 = true → inv_step J (store (Some p) (with_flops v)).
Proof.
  intros Hflag σ [(c & Hc & Hsame & Hflops) Hothers].
  rewrite (store_Some _ _ _ _ Hc). unfold J, config_kept. simpl. split.
  - exists (with_flops v c). rewrite lookup_insert_eq.
    split; [reflexivity|]. split; [exact Hsame|].
    intros Hflag'. congruence.
  - intros q Hq. simpl. rewrite lookup_insert_ne by congruence. apply Hothers, Hq.
Qed.

Lemma invJ_Init (xs : list (option positive)) : inv_step J (Init (Some p) xs).
Proof.
  unfold Init.
  apply inv_bind; [apply inv_stateless, stateless_index | intros x].
  apply inv_bind; [apply invJ_on_nodes | intros g].
  apply inv_bind; [apply invJ_on_nodes | intros dt].
  apply invJ_load. intros c _.
  do 4 (apply inv_bind; [apply inv_stateless, stateless_index | intros ?]).
  apply inv_bind; [apply invJ_on_nodes | intros t].
  apply inv_bind; [apply invJ_store; intros c'; repeat split | intros _].
  apply inv_bind; [apply invJ_store; intros c'; repeat split | intros _].
  apply inv_mret.
Qed.

Lemma Fwd_keeps_config_step (x : Input) : inv_step J (Fwd (Some p) x).
Proof.
  unfold Fwd.
  destruct (CheckOne x); [apply inv_mret|].
  apply inv_bind; [apply inv_Input_Node | intros xN].
  apply invJ_load. intros c _.
  apply inv_bind; [destruct (initialized c); [apply inv_mret | apply invJ_Init]|].
  intros [err|]; [apply inv_mret|].
  apply invJ_load. intros c1 Hsame.
  apply inv_bind; [apply invJ_on_nodes | intros [cv [err|]]].
  - apply inv_bind; [apply inv_Input_Node | intros xN'].
    apply inv_bind; [apply invJ_on_nodes | intros xshp].
    apply inv_bind; [apply invJ_on_nodes | intros wshp].
    apply inv_mret.
  - apply inv_bind; [destruct (act c1); [apply inv_mret | apply inv_fault] | intros g].
    apply inv_bind; [apply invJ_on_nodes | intros [result [err|]]]; [apply inv_mret|].
    apply inv_bind.
    { destruct (dropout c1); [apply invJ_on_nodes | apply inv_mret]. }
    intros [result0 [err|]]; [apply inv_mret|].
    apply inv_bind.
    { destruct (computeFLOPs c1) eqn:Hflag; [|apply inv_mret].
      apply inv_bind; [apply invJ_on_nodes | intros xshp].
      apply inv_bind; [apply invJ_readonly, doComputeFLOPs_readonly | intros v].
      apply invJ_store_flops.
      destruct Hsame as (_ & _ & _ & _ & _ & _ & _ & _ & Hcf). congruence. }
    intros _. apply inv_bind; [apply invJ_on_nodes | intros _; apply inv_mret].
Qed.

End ConfigKept.

(** X14. Whatever its input and outcome, [Fwd] leaves the receiver's
    name, size, kernel shape, pad, stride, dilation, dropout
    probability, activation function and [computeFLOPs] flag as they
    were, changes the cached estimate only if [computeFLOPs] is set,
    and does not touch any other layer of the store. *)
Theorem Fwd_keeps_config (σ : World) (p : positive) (c : Conv) (x : Input) :
  convs σ !! p = Some c →
  config_kept σ p c (Fwd (Some p) x σ).2.
Proof.
  intros Hc. apply Fwd_keeps_config_step. split.
  - exists c. split; [exact Hc|]. split; [repeat split | intros _; reflexivity].
  - intros q _. reflexivity.
Qed.

(** ** ConsConv, past its checks *)

(** X15. For an input node of rank 4, [ConsConv] hands on an error of
    [NewConv] with a nil layer. When [NewConv] returns a layer, [Init]
    runs on it with the input node. If [Init] faults, [ConsConv] faults
    alike, the store being as [NewConv] left it: with an index out of
    range if the layer's size has fewer than two entries, and so
    whenever [ConsConv] is given no option, the size having no default.
    If [Init] returns, [ConsConv] returns the layer initialised:
    [Model] of it is the one handle [NewTensor] returned and [Shape] of
    it reads that handle's node, which gives (size[0], size[1],
    kernelShape[0], kernelShape[1]) when [NewTensor] returns the tensor
    it was asked for. *)
Theorem ConsConv_after_checks (σ σ1 : World) (a : positive) (n n1 : Node)
        (opts : list ConsOpt) :
  nodes σ !! a = Some n →
  length (node_shape n) = 4%nat →
  (∀ l e, NewConv opts σ = (Ret (l, Some e), σ1) →
          ConsConv (InputNode (Some a)) opts σ = (Ret (LayerNil, Some e), σ1)) ∧
  (∀ l, NewConv opts σ = (Ret (l, None), σ1) →
        (∀ k σ2, Init l [Some a] σ1 = (Panic k, σ2) →
                 ConsConv (InputNode (Some a)) opts σ = (Panic k, σ1)) ∧
        (∀ σ2, Init l [Some a] σ1 = (Ret None, σ2) →
               ConsConv (InputNode (Some a)) opts σ = (Ret (LayerConv l, None), σ2) ∧
               ∃ (p : positive) (c : Conv) (t : option positive),
                 l = Some p ∧ convs σ1 !! p = Some c ∧
                 convs σ2 !! p = Some (with_initialized true (with_w t c)) ∧
                 Model l σ2 = (Ret [t], σ2) ∧
                 Conv_Shape l σ2 = on_nodes (Node_Shape t) σ2 ∧
                 (NewTensor_sound →
                  ∀ s0 s1 k0 k1 ss ks,
                    size c = s0 :: s1 :: ss → kernelShape c = k0 :: k1 :: ks →
                    Conv_Shape l σ2 = (Ret [s0; s1; k0; k1], σ2)))) ∧
  (∀ p c, NewConv opts σ = (Ret (Some p, None), σ1) →
          convs σ1 !! p = Some c → nodes σ1 !! a = Some n1 →
          (length (size c) < 2)%nat →
          ConsConv (InputNode (Some a)) opts σ = (Panic IndexOutOfRange, σ1)) ∧
  (ConsConv (InputNode (Some a)) [] σ).1 = Panic IndexOutOfRange.
Proof.
  intros Hn Hrank.
  assert (Hrun : ∀ os, ConsConv (InputNode (Some a)) os σ =
                       ('(l, err) ← NewConv os;
                        match err with
                        | Some e => mret (LayerNil, Some e)
                        | None =>
                          err ← Init l [Some a];
                          match err with
                          | Some e => mret (LayerNil, Some e)
                          | None => mret (LayerConv l, None)
                          end
                        end) σ).
  { intros os. unfold ConsConv. simpl (Input_Node _). rewrite bind_mret.
    unfold Node_Shape. mstep (on_nodes_read _ _ _ _ Hn).
    rewrite Dims_rank_check, bool_decide_eq_false_2 by (intros H'; apply H'; assumption).
    reflexivity. }
  assert (Hshort : ∀ os σa p c na,
             NewConv os σ = (Ret (Some p, None), σa) →
             convs σa !! p = Some c → nodes σa !! a = Some na →
             (length (size c) < 2)%nat →
             ConsConv (InputNode (Some a)) os σ = (Panic IndexOutOfRange, σa)).
  { intros os σa p c na Hnew Hc Hna Hsize. rewrite Hrun. mstep Hnew.
    rewrite bind_unfold.
    rewrite (Init_short_size _ _ _ _ _ [] Hna Hc Hsize). reflexivity. }
  split; [|split; [|split]].
  - intros l e Hnew. rewrite Hrun. mstep Hnew. reflexivity.
  - intros l Hnew. split.
    + intros k σ2 HInit. pose proof (Init_fault_store _ _ _ _ _ HInit) as ->.
      rewrite Hrun. mstep Hnew. mstep HInit. reflexivity.
    + intros σ2 HInit. split.
      { rewrite Hrun. mstep Hnew. mstep HInit. reflexivity. }
      pose proof (Init_returns_completes _ _ _ _ HInit)
        as (p & a' & c & n' & rest & s0 & s1 & k0 & k1 & ss & ks & t & h' &
            -> & _ & Hc & _ & Hsize & Hks & Hnt & ->).
      exists p, c, t. split; [reflexivity|]. split; [exact Hc|].
      split; [apply lookup_insert_eq|].
      split; [unfold Model; mstep load_Some by apply lookup_insert_eq; reflexivity|].
      split; [unfold Conv_Shape; mstep load_Some by apply lookup_insert_eq; reflexivity|].
      intros Hsound s0' s1' k0' k1' ss' ks' Hsize' Hks'.
      rewrite Hsize in Hsize'. injection Hsize' as <- <- <-.
      rewrite Hks in Hks'. injection Hks' as <- <- <-.
      destruct (Hsound _ _ _ _ _ _ _ _ Hnt) as (q & -> & Hq).
      erewrite Conv_Shape_run by apply lookup_insert_eq.
      simpl. rewrite Hq. reflexivity.
  - intros p c Hnew Hc Hn1. exact (Hshort opts σ1 p c n1 Hnew Hc Hn1).
  - erewrite (Hshort [] _ (fresh (dom (convs σ))) defaultConv n); [reflexivity | reflexivity | | | ].
    + apply lookup_insert_eq.
    + exact Hn.
    + simpl. lia.
Qed.

(** ** The setters *)

Lemma call_setters_run (ss : list setter) (σ : World) (p : positive) (c : Conv) :
  convs σ !! p = Some c →
  ∃ c', call_setters (Some p) ss σ
        = (Ret (replicate (length ss) None), mkWorld (nodes σ) (<[p := c']> (convs σ))) ∧
        w c' = w c ∧ initialized c' = initialized c ∧
        flops c' = flops c ∧ computeFLOPs c' = computeFLOPs c ∧
        kernelShape c' = kernelShape c ∧ pad c' = pad c ∧
        stride c' = stride c ∧ dilation c' = dilation c ∧
        (Forall (λ s, ∀ n, s ≠ CallSetName n) ss → name c' = name c).
Proof.
  revert σ c. induction ss as [|s ss IH]; intros σ c Hc.
  - exists c. simpl. rewrite mret_run, insert_id, World_eta by exact Hc. repeat split.
  - assert (Hstep : ∃ c1, call_setter (Some p) s σ
                          = (Ret None, mkWorld (nodes σ) (<[p := c1]> (convs σ))) ∧
                          w c1 = w c ∧ initialized c1 = initialized c ∧
                          flops c1 = flops c ∧ computeFLOPs c1 = computeFLOPs c ∧
                          kernelShape c1 = kernelShape c ∧ pad c1 = pad c ∧
                          stride c1 = stride c ∧ dilation c1 = dilation c ∧
                          ((∀ n, s ≠ CallSetName n) → name c1 = name c)).
    { destruct s as [d|sz|nm|af]; simpl call_setter;
        unfold SetDropout, SetSize, SetName, SetActivationFn;
        rewrite bind_unfold, (store_Some _ _ _ _ Hc); cbv beta iota; rewrite mret_run;
        eexists; (split; [reflexivity|]); repeat split.
      intros Hne. destruct (Hne nm eq_refl). }
    destruct Hstep as (c1 & Hs & Hw1 & Hi1 & Hf1 & Hcf1 & Hk1 & Hp1 & Hst1 & Hd1 & Hn1).
    destruct (IH (mkWorld (nodes σ) (<[p := c1]> (convs σ))) c1 (lookup_insert_eq _ _ _))
      as (c' & Hrun & Hw' & Hi' & Hf' & Hcf' & Hk' & Hp' & Hst' & Hd' & Hn').
    exists c'. simpl call_setters. mstep Hs. mstep Hrun. rewrite mret_run.
    simpl nodes. simpl convs. rewrite insert_insert_eq.
    split; [reflexivity|].
    repeat split; try congruence.
    intros Hall. inversion Hall as [|? ? Hs0 Hss]; subst.
    rewrite (Hn' Hss). apply Hn1, Hs0.
Qed.

(** X16. No sequence of setter calls initialises a layer or sets what
    has no setter: every call of such a sequence on a layer returns a
    nil error, and after it the weight handle, the flag, the cached
    estimate, the [computeFLOPs] flag, kernel shape, pad, stride and
    dilation are what they were and the graph has not changed; on a
    layer not yet initialised [Shape] still faults and [Model] still
    holds a nil handle. *)
Theorem setters_never_initialize (ss : list setter) (σ : World) (p : positive) (c : Conv) :
  convs σ !! p = Some c →
  ∃ c', call_setters (Some p) ss σ
        = (Ret (replicate (length ss) None), mkWorld (nodes σ) (<[p := c']> (convs σ))) ∧
        w c' = w c ∧ initialized c' = initialized c ∧
        flops c' = flops c ∧ computeFLOPs c' = computeFLOPs c ∧
        kernelShape c' = kernelShape c ∧ pad c' = pad c ∧
        stride c' = stride c ∧ dilation c' = dilation c ∧
        (w c = None →
         let σ' := (call_setters (Some p) ss σ).2 in
         Conv_Shape (Some p) σ' = (Panic NilDereference, σ') ∧
         Model (Some p) σ' = (Ret [None], σ')).
Proof.
  intros Hc.
  destruct (call_setters_run ss σ p c Hc)
    as (c' & Hrun & Hw & Hi & Hf & Hcf & Hk & Hp & Hst & Hd & _).
  exists c'. repeat (split; [assumption|]).
  intros Hnil σ'. subst σ'. rewrite Hrun. simpl snd. split.
  - erewrite Conv_Shape_run by apply lookup_insert_eq. rewrite Hw, Hnil. reflexivity.
  - unfold Model. mstep load_Some by apply lookup_insert_eq. rewrite Hw, Hnil. reflexivity.
Qed.

(** X17. [Name] returns the name given to the latest [SetName],
    whatever calls of the other setters came after it. *)
Theorem Name_after_SetName (ss : list setter) (σ : World) (p : positive) (c : Conv)
        (n : string) :
  convs σ !! p = Some c →
  Forall (λ s, ∀ n', s ≠ CallSetName n') ss →
  ((SetName (Some p) n;; call_setters (Some p) ss;; Name (Some p)) σ).1 = Ret n.
Proof.
  intros Hc Hss. unfold SetName.
  rewrite bind_unfold. rewrite bind_unfold, (store_Some _ _ _ _ Hc). cbv beta iota.
  rewrite mret_run. cbv beta iota.
  destruct (call_setters_run ss (mkWorld (nodes σ) (<[p := with_name n c]> (convs σ)))
                             p (with_name n c) (lookup_insert_eq _ _ _))
    as (c' & Hrun & _ & _ & _ & _ & _ & _ & _ & _ & Hname).
  mstep Hrun. unfold Name. mstep load_Some by apply lookup_insert_eq.
  rewrite mret_run. simpl. rewrite (Hname Hss). reflexivity.
Qed.

End FurtherProperties.

(** * The theorems at concrete inputs *)

Lemma doComputeFLOPs_spec_scenario_witness :
  (doComputeFLOPs (Some 1%positive) [1; 3; 32; 32] (exampleInitialized None)
   = (Ret 13680, exampleInitialized None) ∧
   spec_FLOPs 6 3 5 5 1 1 1 1 32 32 false = 410400) ∧
  (doComputeFLOPs (Some 1%positive) [1; 3; 32; 32] (exampleInitialized (Some (@Rectify exampleEngine)))
   = (Ret 13860, exampleInitialized (Some (@Rectify exampleEngine))) ∧
   spec_FLOPs 6 3 5 5 1 1 1 1 32 32 true = 415800).
Proof.
  split.
  - exact (doComputeFLOPs_spec_scenario (exampleInitialized None) 1%positive 5%positive
             (exampleLayer None) exampleWeight 1
             eq_refl eq_refl eq_refl eq_refl eq_refl eq_refl).
  - exact (doComputeFLOPs_spec_scenario (exampleInitialized (Some (@Rectify exampleEngine)))
             1%positive 5%positive
             (exampleLayer (Some (@Rectify exampleEngine))) exampleWeight 1
             eq_refl eq_refl eq_refl eq_refl eq_refl eq_refl).
Defined.

Lemma activation_delta_spec_scenario_witness :
  let σ_none := mkWorld (nodes (exampleInitialized None))
                        (<[1%positive := with_act None (exampleLayer None)]>
                           (convs (exampleInitialized None))) in
  let σ_act := mkWorld (nodes (exampleInitialized None))
                       (<[1%positive := with_act (Some (@Rectify exampleEngine)) (exampleLayer None)]>
                          (convs (exampleInitialized None))) in
  ∃ v_none v_act : Z,
    doComputeFLOPs (Some 1%positive) [1; 3; 32; 32] σ_none = (Ret v_none, σ_none) ∧
    doComputeFLOPs (Some 1%positive) [1; 3; 32; 32] σ_act = (Ret v_act, σ_act) ∧
    v_act - v_none = 180 ∧
    6 * spec_instancesPerFilter 5 5 1 1 1 1 32 32 = 5400 ∧
    spec_FLOPs 6 3 5 5 1 1 1 1 32 32 true - spec_FLOPs 6 3 5 5 1 1 1 1 32 32 false = 5400.
Proof.
  exact (activation_delta_spec_scenario (exampleInitialized None) 1%positive 5%positive
           (exampleLayer None) exampleWeight (@Rectify exampleEngine) 1
           eq_refl eq_refl eq_refl eq_refl eq_refl eq_refl).
Defined.

Lemma exampleTwin_activation_set :
  is_Some (act (exampleLayer (Some (@Rectify exampleEngine)))) ↔
  is_Some (Some (λ _ : option positive, addNode [1] "tanh")).
Proof. split; intros _; eexists; reflexivity. Qed.

Lemma doComputeFLOPs_deterministic_witness :
  let σ := exampleInitialized (Some (@Rectify exampleEngine)) in
  (doComputeFLOPs (Some 1%positive) [1; 3; 32; 32] σ).1
  = (doComputeFLOPs (Some 4%positive) [1; 3; 32; 32] exampleTwin).1 ∧
  (doComputeFLOPs (Some 1%positive) [1; 3; 32; 32] σ).2 = σ ∧
  ∀ (v1 v2 : Z) (σ2 : World),
    (v1 ← doComputeFLOPs (Some 1%positive) [1; 3; 32; 32];
     v2 ← doComputeFLOPs (Some 1%positive) [1; 3; 32; 32];
     mret (v1, v2)) σ = (Ret (v1, v2), σ2) →
    v1 = v2 ∧ σ2 = σ.
Proof.
  exact (doComputeFLOPs_deterministic
           (exampleInitialized (Some (@Rectify exampleEngine))) exampleTwin
           1%positive 4%positive
           (exampleLayer (Some (@Rectify exampleEngine)))
           (mkConv (Some 8%positive) "other" [] [3; 3] [1; 1] [1; 1] [2; 2]
                   (Some 7) (Some (λ _, addNode [1] "tanh")) false false 42)
           [1; 3; 32; 32]
           eq_refl eq_refl eq_refl eq_refl eq_refl exampleTwin_activation_set).
Defined.

Lemma ConsConv_input_checks_witness :
  let nilError (i : Input) :=
    Errorf "ConsConv expects a *Node. Got input %v of  %T instead"
           [argOfInput i; typeOfInput i] in
  let failed := InputErr (Errorf "upstream" []) in
  @ConsConv exampleEngine (InputNode None) [] exampleWorld
  = (Ret (LayerNil, Some (nilError (InputNode None))), exampleWorld) ∧
  @ConsConv exampleEngine failed [] exampleWorld
  = (Ret (LayerNil, Some (nilError failed)), exampleWorld) ∧
  @ConsConv exampleEngine (InputNode (Some 2%positive)) [] exampleWorld
  = (Ret (LayerNil, Some (Errorf "Expected shape is either a vector or a matrix, got %v"
                                 [ArgShape [4; 4]])), exampleWorld) ∧
  (@ConsConv exampleEngine (InputNode (Some 1%positive)) [sizing [6; 3]] exampleWorld).1
  = Ret (LayerConv (Some 1%positive), None).
Proof.
  intros nilError failed.
  split; [|split; [|split]].
  - exact (proj1 (@ConsConv_input_checks exampleEngine (InputNode None) [] exampleWorld)
                 eq_refl).
  - exact (proj1 (@ConsConv_input_checks exampleEngine failed [] exampleWorld) eq_refl).
  - exact (proj1 (proj2 (@ConsConv_input_checks exampleEngine (InputNode (Some 2%positive))
                                                 [] exampleWorld))
                 2%positive exampleMatrix eq_refl eq_refl
                 ltac:(vm_compute; discriminate)).
  - rewrite (proj2 (proj2 (@ConsConv_input_checks exampleEngine (InputNode (Some 1%positive))
                                                   [sizing [6; 3]] exampleWorld))
                   1%positive exampleInput eq_refl eq_refl eq_refl).
    vm_compute. reflexivity.
Defined.

Lemma exampleConfigured_act_extends : act_extends exampleConfiguredLayer.
Proof. intros f [= <-] x. apply addNode_extends. Qed.

(** The example engine's [NewTensor] returns the tensor it was asked
    for. *)
Lemma exampleEngine_NewTensor_sound : @NewTensor_sound exampleEngine.
Proof.
  intros g dt dims shp nm h t h'. simpl. unfold exampleNewTensor.
  destruct (_ && _); [|discriminate].
  destruct (find_node h (mkNode g dt shp nm)) as [q|] eqn:Hfind.
  - intros [= <- <-]. exists q. split; [reflexivity|].
    unfold find_node in Hfind.
    destruct (List.find _ _) as [[q' n']|] eqn:Hf; [|discriminate].
    injection Hfind as <-.
    apply List.find_some in Hf as [Hin Heq].
    apply bool_decide_eq_true_1 in Heq. simpl in Heq. subst n'.
    apply elem_of_map_to_list, list_elem_of_In, Hin.
  - intros [= <- <-]. exists (fresh (dom h)). split; [reflexivity|].
    apply lookup_insert_eq.
Qed.

Lemma exampleConfigured_Init (rest : list (option positive)) :
  @Init exampleEngine (Some 1%positive) (Some 1%positive :: rest) exampleConfigured
  = (Ret None, exampleInit).
Proof.
  exact (@Init_run exampleEngine exampleConfigured 1%positive 1%positive exampleConfiguredLayer
           exampleInput rest 6 3 5 5 [] [] (Some 3%positive)
           (<[3%positive := exampleWeight]> (nodes exampleConfigured))
           eq_refl eq_refl eq_refl eq_refl eq_refl).
Qed.

Lemma Fwd_initializes_once_witness :
  let t := 3%positive in
  let first := @Fwd exampleEngine (Some 1%positive) (InputNode (Some 1%positive))
                    exampleConfigured in
  first = @Fwd exampleEngine (Some 1%positive) (InputNode (Some 1%positive)) exampleInit ∧
  initialized_with 1%positive (Some t) first.2 ∧
  (∀ (σ' : World) (x : Input),
     initialized_with 1%positive (Some t) σ' →
     initialized_with 1%positive (Some t) (@Fwd exampleEngine (Some 1%positive) x σ').2) ∧
  weight_bound 1%positive t exampleWeight first.2 ∧
  (∀ (σ' : World) (x : Input),
     weight_bound 1%positive t exampleWeight σ' →
     weight_bound 1%positive t exampleWeight (@Fwd exampleEngine (Some 1%positive) x σ').2).
Proof.
  intros t first.
  destruct (@Fwd_initializes_once exampleEngine exampleConfigured exampleInit 1%positive
              1%positive exampleConfiguredLayer eq_refl eq_refl (exampleConfigured_Init []))
    as (n & s0 & s1 & k0 & k1 & t' & h' & Hn & Hsize & Hks & Hnt & _ & Hfirst & Hhandle &
        Hkeeps & Hweight).
  injection Hn as <-. injection Hsize as <- <-. injection Hks as <- <-.
  injection Hnt as <- <-.
  destruct (Hweight exampleEngine_NewTensor_sound exampleEngine_extends
                    exampleConfigured_act_extends)
    as (q & [= <-] & _ & Hw & Hwkeeps).
  repeat split; assumption.
Defined.

(** C5, the claim as worded fails: the layer [NewConv] builds without
    options has no size, so its first [Fwd], on a four-dimensional
    input node, faults in [Init] on [l.size[0]] and leaves the layer
    as it was, not initialised and without a weight. *)
Lemma Fwd_default_layer_faults :
  let r := @NewConv exampleEngine [] exampleWorld in
  let r' := @Fwd exampleEngine (Some 1%positive) (InputNode (Some 1%positive)) r.2 in
  r.1 = Ret (Some 1%positive, None) ∧
  initialized <$> (convs r.2 !! 1%positive) = Some false ∧
  r'.1 = Panic IndexOutOfRange ∧
  initialized <$> (convs r'.2 !! 1%positive) = Some false ∧
  w <$> (convs r'.2 !! 1%positive) = Some None.
Proof. vm_compute. repeat split. Qed.

Lemma Init_creates_weight_witness :
  let σ := exampleConfigured in
  (∀ e, (@Init exampleEngine (Some 1%positive) [Some 1%positive; None] σ).1 ≠ Ret (Some e)) ∧
  @Init exampleEngine (Some 1%positive) [Some 1%positive; None] σ
  = @Init exampleEngine (Some 1%positive) [Some 1%positive] σ ∧
  @Init exampleEngine (Some 1%positive) [Some 1%positive; None] σ = (Ret None, exampleInit) ∧
  (∃ k, @Init exampleEngine (Some 1%positive) [] σ = (Panic k, σ)).
Proof.
  intros σ.
  pose proof (@Init_creates_weight exampleEngine (Some 1%positive) [Some 1%positive; None] σ)
    as (Hnil & Hfirst & Hrun & _).
  split; [exact Hnil|].
  split; [exact (Hfirst (Some 1%positive) [None] eq_refl)|].
  split.
  - apply Hrun.
    exists 1%positive, 1%positive, exampleConfiguredLayer, exampleInput, [None],
           6, 3, 5, 5, [], [], (Some 3%positive),
           (<[3%positive := exampleWeight]> (nodes exampleConfigured)).
    repeat split.
  - apply (@Init_creates_weight exampleEngine (Some 1%positive) [] σ).
    intros σ' (p & a & c & n & rest & s0 & s1 & k0 & k1 & ss & ks & t & h' & _ & Hxs & _).
    discriminate.
Defined.

(** C9, the claim as worded fails: on the layer [NewConv] builds
    without options, [Init] with an input node faults on [l.size[0]];
    it returns nothing, creates no weight and leaves the flag unset. *)
Lemma Init_default_layer_faults :
  let r := @NewConv exampleEngine [] exampleWorld in
  let r' := @Init exampleEngine (Some 1%positive) [Some 1%positive] r.2 in
  r.1 = Ret (Some 1%positive, None) ∧
  r'.1 = Panic IndexOutOfRange ∧
  r'.1 ≠ Ret None ∧
  nodes r'.2 = nodes exampleWorld ∧
  initialized <$> (convs r'.2 !! 1%positive) = Some false ∧
  w <$> (convs r'.2 !! 1%positive) = Some None.
Proof. vm_compute. repeat split. discriminate. Qed.

Lemma Conv_Shape_dereferences_weight_witness :
  Conv_Shape (Some 1%positive) (exampleInitialized None)
  = (Ret [6; 3; 5; 5], exampleInitialized None) ∧
  Conv_Shape (Some 1%positive) exampleConfigured
  = (Panic NilDereference, exampleConfigured) ∧
  Conv_Shape (Some 1%positive) exampleInit = (Ret [6; 3; 5; 5], exampleInit).
Proof.
  split; [|split].
  - exact (proj1 (@Conv_Shape_dereferences_weight exampleEngine (exampleInitialized None)
                    1%positive (exampleLayer None) eq_refl)
                 5%positive exampleWeight eq_refl eq_refl).
  - exact (proj1 (proj2 (@Conv_Shape_dereferences_weight exampleEngine exampleConfigured
                           1%positive exampleConfiguredLayer eq_refl))
                 eq_refl).
  - destruct (proj1 (proj2 (proj2 (@Conv_Shape_dereferences_weight exampleEngine
                                     exampleConfigured 1%positive exampleConfiguredLayer
                                     eq_refl)))
                    1%positive exampleInput 6 3 5 5 [] [] exampleInit
                    eq_refl eq_refl eq_refl (exampleConfigured_Init []))
      as (t & h' & _ & _ & Hshape).
    exact (Hshape exampleEngine_NewTensor_sound).
Defined.

(** * The further properties at concrete inputs *)

Lemma NewConv_error_nil_witness :
  @NewConv exampleEngine [sizing [6; 3]; rejecting "unsupported"] exampleWorld
  = (Ret (None, Some exampleRejection), exampleSized) ∧
  (None : option positive) = None.
Proof.
  split; [reflexivity|].
  exact (@NewConv_error_nil exampleEngine [sizing [6; 3]; rejecting "unsupported"]
           exampleWorld exampleSized None exampleRejection eq_refl).
Defined.

Lemma sizing_threaded :
  threaded (Some 1%positive) [sizing [6; 3]] exampleAllocated (Some 1%positive) exampleSized.
Proof. eapply threaded_cons; [reflexivity | apply threaded_nil]. Qed.

Lemma NewConv_first_failure_witness :
  @NewConv exampleEngine ([sizing [6; 3]] ++ rejecting "unsupported" :: [naming "a"]) exampleWorld
  = (Ret (None, Some exampleRejection), exampleSized) ∧
  @NewConv exampleEngine ([sizing [6; 3]] ++ retyping :: [naming "a"]) exampleWorld
  = (Ret (None, Some (Errorf "Construction Option returned a non Conv. Got %T instead"
                             [ArgType "*golgi.FC"])), exampleSized).
Proof.
  split.
  - exact (proj1 (@NewConv_first_failure exampleEngine [sizing [6; 3]] [naming "a"]
                    (rejecting "unsupported") (Some 1%positive) (Some 1%positive)
                    exampleWorld exampleAllocated exampleSized eq_refl sizing_threaded)
                 LayerNil exampleRejection exampleSized eq_refl).
  - exact (proj2 (@NewConv_first_failure exampleEngine [sizing [6; 3]] [naming "a"]
                    retyping (Some 1%positive) (Some 1%positive)
                    exampleWorld exampleAllocated exampleSized eq_refl sizing_threaded)
                 (LayerOther "*golgi.FC" None) exampleSized eq_refl
                 ltac:(intros q; discriminate)).
Defined.

Lemma Init_faults_before_writing_witness :
  @Init exampleEngine (Some 1%positive) [] exampleConfigured
  = (Panic IndexOutOfRange, exampleConfigured) ∧
  @Init exampleEngine (Some 1%positive) [None] exampleConfigured
  = (Panic NilDereference, exampleConfigured) ∧
  @Init exampleEngine None [Some 1%positive] exampleConfigured
  = (Panic NilDereference, exampleConfigured) ∧
  @Init exampleEngine (Some 1%positive) [Some 1%positive] exampleAllocated
  = (Panic IndexOutOfRange, exampleAllocated).
Proof.
  split; [|split; [|split]].
  - exact (proj1 (proj2 (@Init_faults_before_writing exampleEngine (Some 1%positive) []
                           exampleConfigured))
                 eq_refl).
  - exact (proj1 (proj2 (proj2 (@Init_faults_before_writing exampleEngine (Some 1%positive)
                                  [None] exampleConfigured)))
                 [] eq_refl).
  - exact (proj1 (proj2 (proj2 (proj2 (@Init_faults_before_writing exampleEngine None
                                         [Some 1%positive] exampleConfigured))))
                 1%positive exampleInput [] eq_refl eq_refl eq_refl).
  - exact (proj2 (proj2 (proj2 (proj2 (@Init_faults_before_writing exampleEngine
                                         (Some 1%positive) [Some 1%positive]
                                         exampleAllocated))))
                 1%positive exampleInput 1%positive (@defaultConv exampleEngine) []
                 eq_refl eq_refl eq_refl eq_refl ltac:(simpl; lia)).
Defined.

Lemma doComputeFLOPs_closed_form_witness :
  doComputeFLOPs (Some 1%positive) [1; 3; 32; 32] (exampleInitialized None)
  = (Ret (spec_FLOPs 6 3 5 5 1 1 1 1 3 32 false), exampleInitialized None) ∧
  spec_FLOPs 6 3 5 5 1 1 1 1 3 32 false = 13680.
Proof.
  split; [|reflexivity].
  apply (doComputeFLOPs_closed_form (exampleInitialized None) 1%positive 5%positive
           (exampleLayer None) exampleWeight 6 3 5 5 1 3 32 1 1 1 1 [32] [] []);
    try reflexivity; unfold small; try lia.
  vm_compute. discriminate.
Defined.

Lemma doComputeFLOPs_faults_witness :
  doComputeFLOPs (Some 1%positive) [1; 3; 32; 32] exampleConfigured
  = (Panic NilDereference, exampleConfigured) ∧
  (∃ k, doComputeFLOPs (Some 1%positive) [3; 32] (exampleInitialized None)
        = (Panic k, exampleInitialized None)) ∧
  doComputeFLOPs (Some 1%positive) [1; 3; 32; 32] exampleZeroStride
  = (Panic DivideByZero, exampleZeroStride).
Proof.
  split; [|split].
  - exact (proj1 (doComputeFLOPs_faults exampleConfigured 1%positive exampleConfiguredLayer
                    [1; 3; 32; 32] eq_refl) eq_refl).
  - exact (proj1 (proj2 (doComputeFLOPs_faults (exampleInitialized None) 1%positive
                           (exampleLayer None) [3; 32] eq_refl)
                        5%positive exampleWeight 6 3 5 5 eq_refl eq_refl eq_refl)
                 ltac:(simpl; lia)).
  - exact (proj1 (proj2 (proj2 (doComputeFLOPs_faults exampleZeroStride 1%positive
                                  exampleZeroStrideLayer [1; 3; 32; 32] eq_refl)
                               5%positive exampleWeight 6 3 5 5 eq_refl eq_refl eq_refl))
                 1 3 [32; 32] 1 [1] [1] eq_refl eq_refl eq_refl).
Defined.

Lemma Fwd_bad_input_witness :
  @Fwd exampleEngine (Some 1%positive) (InputErr exampleConvError) exampleConfigured
  = (Ret (wrapErr (Some 1%positive) "checking input: %w" [ArgError exampleConvError]),
     exampleConfigured) ∧
  @Fwd exampleEngine (Some 1%positive) (InputNode None) exampleConfigured
  = (Panic NilDereference, exampleConfigured).
Proof.
  split.
  - exact (proj1 (@Fwd_bad_input exampleEngine exampleConfigured)
                 (Some 1%positive) exampleConvError).
  - exact (proj2 (proj2 (@Fwd_bad_input exampleEngine exampleConfigured))
                 1%positive exampleConfiguredLayer eq_refl eq_refl).
Defined.

Lemma Fwd_conv2d_error_witness :
  let σ := exampleInitialized None in
  @Fwd exampleFailingEngine (Some 1%positive) (InputNode (Some 1%positive)) σ
  = (Ret (wrapErr (Some 1%positive) "applying conv2d %v %v: %w"
                  [ArgShape [1; 3; 32; 32]; ArgShape [6; 3; 5; 5]; ArgError exampleConvError]),
     σ) ∧
  @Fwd exampleFailingEngine (Some 1%positive) (InputNode None) σ = (Panic NilDereference, σ).
Proof.
  intros σ.
  pose proof (@Fwd_conv2d_error exampleFailingEngine σ σ 1%positive (exampleLayer None)
                (Some 1%positive) None exampleConvError eq_refl eq_refl eq_refl)
    as (_ & Hnode & _).
  pose proof (@Fwd_conv2d_error exampleFailingEngine σ σ 1%positive (exampleLayer None)
                None None exampleConvError eq_refl eq_refl eq_refl)
    as (_ & _ & Hnil).
  split.
  - exact (Hnode 1%positive exampleInput 5%positive exampleWeight
                 eq_refl eq_refl eq_refl eq_refl).
  - exact (Hnil eq_refl).
Defined.

Lemma Fwd_result_witness :
  let σ := exampleInitialized (Some (@Rectify exampleEngine)) in
  @Fwd exampleEngine (Some 1%positive) (InputNode (Some 1%positive)) σ
  = (Ret (InputNode (Some 7%positive)), exampleForwarded) ∧
  FLOPs (Some 1%positive) exampleForwarded = (Ret 13860, exampleForwarded).
Proof.
  intros σ.
  exact (@Fwd_result exampleEngine σ
           (mkWorld (<[6%positive := mkNode None Float64 [] "conv2d"]> (nodes σ)) (convs σ))
           (mkWorld (nodes exampleForwarded) (convs σ))
           (mkWorld (nodes exampleForwarded) (convs σ))
           1%positive 1%positive 7%positive
           (exampleLayer (Some (@Rectify exampleEngine)))
           (@Rectify exampleEngine) (Some 6%positive) (Some 7%positive)
           exampleInput (mkNode None Float64 [] "rectify") 13860
           eq_refl eq_refl eq_refl eq_refl eq_refl eq_refl eq_refl eq_refl
           (λ _, eq_refl)).
Defined.

Lemma Fwd_keeps_config_witness :
  config_kept exampleConfigured 1%positive exampleConfiguredLayer
              (@Fwd exampleEngine (Some 1%positive) (InputNode (Some 1%positive))
                    exampleConfigured).2.
Proof.
  exact (@Fwd_keeps_config exampleEngine exampleConfigured 1%positive exampleConfiguredLayer
           (InputNode (Some 1%positive)) eq_refl).
Defined.

Lemma exampleSized_Init :
  @Init exampleEngine (Some 1%positive) [Some 1%positive] exampleSized
  = (Ret None, exampleBuilt).
Proof.
  exact (@Init_run exampleEngine exampleSized 1%positive 1%positive
           (with_size [6; 3] (@defaultConv exampleEngine)) exampleInput [] 6 3 5 5 [] []
           (Some 3%positive) (nodes exampleBuilt)
           eq_refl eq_refl eq_refl eq_refl eq_refl).
Qed.

Lemma ConsConv_after_checks_witness :
  @ConsConv exampleEngine (InputNode (Some 1%positive)) [sizing [6; 3]] exampleWorld
  = (Ret (LayerConv (Some 1%positive), None), exampleBuilt) ∧
  Conv_Shape (Some 1%positive) exampleBuilt = (Ret [6; 3; 5; 5], exampleBuilt) ∧
  Model (Some 1%positive) exampleBuilt = (Ret [Some 3%positive], exampleBuilt) ∧
  (@ConsConv exampleEngine (InputNode (Some 1%positive)) [] exampleWorld).1
  = Panic IndexOutOfRange ∧
  @ConsConv exampleEngine (InputNode (Some 1%positive)) [sizing [6; 3]; rejecting "unsupported"]
            exampleWorld
  = (Ret (LayerNil, Some exampleRejection), exampleSized).
Proof.
  pose proof (@ConsConv_after_checks exampleEngine exampleWorld exampleSized 1%positive
                exampleInput exampleInput [sizing [6; 3]] eq_refl eq_refl)
    as (_ & Hbuilt & _ & Hnone).
  destruct (Hbuilt (Some 1%positive) eq_refl) as [_ Hok].
  destruct (Hok exampleBuilt exampleSized_Init)
    as (Hcons & p & c & t & [= <-] & [= <-] & [= <-] & Hmodel & _ & Hshape).
  split; [exact Hcons|].
  split; [exact (Hshape exampleEngine_NewTensor_sound 6 3 5 5 [] [] eq_refl eq_refl)|].
  split; [exact Hmodel|].
  split; [exact Hnone|].
  exact (proj1 (@ConsConv_after_checks exampleEngine exampleWorld exampleSized 1%positive
                  exampleInput exampleInput [sizing [6; 3]; rejecting "unsupported"]
                  eq_refl eq_refl)
               None exampleRejection eq_refl).
Defined.

Lemma setters_never_initialize_witness :
  let ss := [CallSetName "c1"; CallSetSize [6; 3]; CallSetDropout 5;
             CallSetActivationFn None] in
  let σ' := (call_setters (Some 1%positive) ss exampleAllocated).2 in
  (call_setters (Some 1%positive) ss exampleAllocated).1 = Ret [None; None; None; None] ∧
  Conv_Shape (Some 1%positive) σ' = (Panic NilDereference, σ') ∧
  Model (Some 1%positive) σ' = (Ret [None], σ').
Proof.
  intros ss σ'.
  destruct (@setters_never_initialize ss exampleAllocated 1%positive
              (@defaultConv exampleEngine) eq_refl)
    as (c' & Hrun & _ & _ & _ & _ & _ & _ & _ & _ & Hnil).
  split; [rewrite Hrun; reflexivity|].
  exact (Hnil eq_refl).
Defined.

Lemma Name_after_SetName_witness :
  ((SetName (Some 1%positive) "c1";;
    call_setters (Some 1%positive) [CallSetSize [6; 3]; CallSetDropout 5];;
    Name (Some 1%positive)) exampleAllocated).1 = Ret "c1".
Proof.
  apply (Name_after_SetName [CallSetSize [6; 3]; CallSetDropout 5] exampleAllocated
           1%positive (@defaultConv exampleEngine) "c1" eq_refl).
  repeat constructor; intros n'; discriminate.
Defined.

Lemma doComputeFLOPs_reads_two_entries_witness :
  doComputeFLOPs (Some 1%positive) [1; 3; 32; 32] (exampleInitialized None)
  = doComputeFLOPs (Some 1%positive) [64; 3; 32; 7; 9] (exampleInitialized None).
Proof.
  exact (doComputeFLOPs_reads_two_entries (Some 1%positive) [1; 3; 32; 32] [64; 3; 32; 7; 9]
           (exampleInitialized None) eq_refl eq_refl).
Defined.
